(** * A 3x3x3 cube turned a quarter at a time: the kinematics of [Cube3D]

    The development follows the TypeScript sources: the Move Table of
    [types.ts], the cubie store and the per-frame animation of the two
    [Cube3D] components, the drag resolver [determineBestMove], and the
    queue handlers [handleMove] and [scramble] of [App.tsx].

    Numbers.  A JavaScript [number] is modelled by an exact element of the
    field Q(sqrt 2): every quantity the turn engine computes (lattice
    coordinates, the sine and cosine of multiples of 45 degrees, products
    of such quaternions) lives there.  The rounding of IEEE doubles is not
    modelled; [Math.round] is, and it is the identity on the integers the
    exact computation produces. *)

From Stdlib Require Import ZArith QArith Qcanon List Bool String Ascii Lia.
From Stdlib Require Import Permutation Ring Field.
From Stdlib Require Reals Qreals Lra.
Import ListNotations.

(* ================================================================== *)
(** ** Exact numbers: the field Q(sqrt 2) *)
(* ================================================================== *)

Module Num.

Local Open Scope Qc_scope.

(** [rat + irr * sqrt 2], both coefficients canonical rationals. *)
Record num : Set := mk_num { rat_part : Qc; irr_part : Qc }.

Definition qz (z : Z) : Qc := Q2Qc (inject_Z z).
Definition qfrac (n : Z) (d : positive) : Qc := Q2Qc (n # d).

Definition of_Z (z : Z) : num := mk_num (qz z) 0.
Definition of_frac (n : Z) (d : positive) : num := mk_num (qfrac n d) 0.

Definition zero : num := mk_num 0 0.
Definition one : num := mk_num 1 0.
Definition two : num := mk_num (1 + 1) 0.

Definition add (a b : num) : num :=
  mk_num (rat_part a + rat_part b) (irr_part a + irr_part b).

Definition opp (a : num) : num :=
  mk_num (- rat_part a) (- irr_part a).

Definition sub (a b : num) : num :=
  mk_num (rat_part a - rat_part b) (irr_part a - irr_part b).

Definition mul (a b : num) : num :=
  mk_num (rat_part a * rat_part b + (1 + 1) * (irr_part a * irr_part b))
         (rat_part a * irr_part b + irr_part a * rat_part b).

(** The conjugate [rat - irr * sqrt 2] and the rational norm
    [rat^2 - 2 irr^2] give the inverse. *)
Definition norm (a : num) : Qc :=
  rat_part a * rat_part a - (1 + 1) * (irr_part a * irr_part a).

Definition inv (a : num) : num :=
  mk_num (rat_part a / norm a) (- irr_part a / norm a).

Definition div (a b : num) : num := mul a (inv b).

(** [sqrt 2 / 2], the sine and the cosine of 45 degrees. *)
Definition half_sqrt2 : num := mk_num 0 (/ (1 + 1)).

(** *** Order *)

(** Sign of [a + b sqrt 2].  With opposite signs of [a] and [b] the
    squares decide. *)
Definition sgn (x : num) : comparison :=
  let a := rat_part x in
  let b := irr_part x in
  match a ?= 0, b ?= 0 with
  | Eq, cb => cb
  | ca, Eq => ca
  | Gt, Gt => Gt
  | Lt, Lt => Lt
  | Gt, Lt => a * a ?= (1 + 1) * (b * b)
  | Lt, Gt => (1 + 1) * (b * b) ?= a * a
  end.

Definition compare (x y : num) : comparison := sgn (sub x y).

Definition ltb (x y : num) : bool :=
  match compare x y with Lt => true | _ => false end.

Definition leb (x y : num) : bool :=
  match compare x y with Gt => false | _ => true end.

Definition eqb (x y : num) : bool :=
  Qeq_bool (rat_part x) (rat_part y) && Qeq_bool (irr_part x) (irr_part y).

(** [Math.abs] *)
Definition abs (x : num) : num :=
  match sgn x with Lt => opp x | _ => x end.

(** *** Rounding *)

(** [floor (a + b sqrt 2)].  Over the common denominator [D] the number is
    [(N + M sqrt 2) / D]; [M sqrt 2] is plus or minus [sqrt (2 M^2)], whose
    floor the integer square root gives, and flooring the numerator first
    does not change the floor of the quotient. *)
Definition floor (x : num) : Z :=
  let a := this (rat_part x) in
  let b := this (irr_part x) in
  let N := (Qnum a * Zpos (Qden b))%Z in
  let M := (Qnum b * Zpos (Qden a))%Z in
  let D := (Zpos (Qden a) * Zpos (Qden b))%Z in
  let r := Z.sqrt (2 * M * M) in
  let fl := match M with
            | Z0 => 0%Z
            | Zpos _ => r
            | Zneg _ => (- r - 1)%Z
            end in
  ((N + fl) / D)%Z.

(** [Math.round]: the nearest integer, halves going up. *)
Definition round (x : num) : num :=
  of_Z (floor (add x (of_frac 1 2))).

End Num.

Declare Scope num_scope.
Delimit Scope num_scope with num.
Bind Scope num_scope with Num.num.
Infix "+" := Num.add : num_scope.
Infix "-" := Num.sub : num_scope.
Infix "*" := Num.mul : num_scope.
Infix "/" := Num.div : num_scope.
Notation "- x" := (Num.opp x) : num_scope.
Infix "<?" := Num.ltb : num_scope.
Infix "<=?" := Num.leb : num_scope.
Notation "0" := Num.zero : num_scope.
Notation "1" := Num.one : num_scope.
Notation "2" := Num.two : num_scope.

Local Open Scope num_scope.

(* ================================================================== *)
(** ** The three.js values the turn engine uses *)
(* ================================================================== *)

Module THREE.

Record Vector3 : Set := mk_Vector3 { x : Num.num; y : Num.num; z : Num.num }.

Record Vector2 : Set := mk_Vector2 { x2 : Num.num; y2 : Num.num }.

Record Quaternion : Set :=
  mk_Quaternion { qx : Num.num; qy : Num.num; qz : Num.num; qw : Num.num }.

(** [new THREE.Quaternion()] *)
Definition identity : Quaternion := mk_Quaternion 0 0 0 1.

(** Sine and cosine of [k * 45 degrees].  The half angle that
    [setFromAxisAngle] takes of [(Math.PI / 2) * direction] is such a
    multiple for every integer [direction]. *)
Definition sin_eighth (k : Z) : Num.num :=
  match (k mod 8)%Z with
  | 0%Z => 0
  | 1%Z => Num.half_sqrt2
  | 2%Z => 1
  | 3%Z => Num.half_sqrt2
  | 4%Z => 0
  | 5%Z => - Num.half_sqrt2
  | 6%Z => Num.opp 1
  | _ => - Num.half_sqrt2
  end.

Definition cos_eighth (k : Z) : Num.num := sin_eighth (k + 2).

(** [q.setFromAxisAngle(axis, angle)] with the sine and the cosine of the
    half angle given. *)
Definition fromAxisHalfAngle (axis : Vector3) (s c : Num.num) : Quaternion :=
  mk_Quaternion (x axis * s) (y axis * s) (z axis * s) c.

(** [q.setFromAxisAngle(axis, (Math.PI / 2) * quarters)] *)
Definition setFromAxisAngle (axis : Vector3) (quarters : Z) : Quaternion :=
  fromAxisHalfAngle axis (sin_eighth quarters) (cos_eighth quarters).

(** [v.applyQuaternion(q)]: [t = 2 * cross(q.xyz, v)], then
    [v + q.w * t + cross(q.xyz, t)]. *)
Definition applyQuaternion (v : Vector3) (q : Quaternion) : Vector3 :=
  let tx := 2 * (qy q * z v - qz q * y v) in
  let ty := 2 * (qz q * x v - qx q * z v) in
  let tz := 2 * (qx q * y v - qy q * x v) in
  mk_Vector3 (x v + qw q * tx + qy q * tz - qz q * ty)
             (y v + qw q * ty + qz q * tx - qx q * tz)
             (z v + qw q * tz + qx q * ty - qy q * tx).

(** Releases of three.js before r152 compute [q * v * conj q] in two
    steps instead; for a unit quaternion the result is the same
    ([applyQuaternion_legacy_unit] below). *)
Definition applyQuaternion_legacy (v : Vector3) (q : Quaternion) : Vector3 :=
  let ix := qw q * x v + qy q * z v - qz q * y v in
  let iy := qw q * y v + qz q * x v - qx q * z v in
  let iz := qw q * z v + qx q * y v - qy q * x v in
  let iw := - qx q * x v - qy q * y v - qz q * z v in
  mk_Vector3 (ix * qw q + iw * - qx q + iy * - qz q - iz * - qy q)
             (iy * qw q + iw * - qy q + iz * - qx q - ix * - qz q)
             (iz * qw q + iw * - qz q + ix * - qy q - iy * - qx q).

(** [multiplyQuaternions(a, b)] *)
Definition multiplyQuaternions (a b : Quaternion) : Quaternion :=
  mk_Quaternion
    (qx a * qw b + qw a * qx b + qy a * qz b - qz a * qy b)
    (qy a * qw b + qw a * qy b + qz a * qx b - qx a * qz b)
    (qz a * qw b + qw a * qz b + qx a * qy b - qy a * qx b)
    (qw a * qw b - qx a * qx b - qy a * qy b - qz a * qz b).

(** [r.premultiply(q)] is [q * r]. *)
Definition premultiply (r q : Quaternion) : Quaternion :=
  multiplyQuaternions q r.

Definition negate (q : Quaternion) : Quaternion :=
  mk_Quaternion (- qx q) (- qy q) (- qz q) (- qw q).

(** [v.sub(w)] and [v.lengthSq()] *)
Definition sub (v w : Vector3) : Vector3 :=
  mk_Vector3 (x v - x w) (y v - y w) (z v - z w).

Definition lengthSq (v : Vector3) : Num.num :=
  x v * x v + y v * y v + z v * z v.

(** Rounding the three components, as the commit does one by one. *)
Definition roundComponents (v : Vector3) : Vector3 :=
  mk_Vector3 (Num.round (x v)) (Num.round (y v)) (Num.round (z v)).

Definition Vector3_eqb (v w : Vector3) : bool :=
  Num.eqb (x v) (x w) && Num.eqb (y v) (y w) && Num.eqb (z v) (z w).

Definition Quaternion_eqb (q r : Quaternion) : bool :=
  Num.eqb (qx q) (qx r) && Num.eqb (qy q) (qy r)
  && Num.eqb (qz q) (qz r) && Num.eqb (qw q) (qw r).

End THREE.

(* ================================================================== *)
(** ** types.ts: axes, moves, cubies and the Move Table *)
(* ================================================================== *)

Inductive Axis : Set := AxisX | AxisY | AxisZ.

Definition Axis_eqb (a b : Axis) : bool :=
  match a, b with
  | AxisX, AxisX | AxisY, AxisY | AxisZ, AxisZ => true
  | _, _ => false
  end.

Record Move : Set := mk_Move {
  axis : Axis;
  slice : Z;          (* -1, 0, 1 *)
  direction : Z;      (* 1 or -1 *)
  name : string
}.

Record Cubie : Set := mk_Cubie {
  id : Z;
  position : THREE.Vector3;
  rotation : THREE.Quaternion;
  cubie_name : string
}.

(** The twelve entries of [MOVES]: a clockwise and a counter-clockwise
    quarter turn for each face. *)
Definition U1 : Move := mk_Move AxisY 1 (-1) "U".
Definition U2 : Move := mk_Move AxisY 1 1 "U'".
Definition D1 : Move := mk_Move AxisY (-1) 1 "D".
Definition D2 : Move := mk_Move AxisY (-1) (-1) "D'".
Definition L1 : Move := mk_Move AxisX (-1) 1 "L".
Definition L2 : Move := mk_Move AxisX (-1) (-1) "L'".
Definition R1 : Move := mk_Move AxisX 1 (-1) "R".
Definition R2 : Move := mk_Move AxisX 1 1 "R'".
Definition F1 : Move := mk_Move AxisZ 1 (-1) "F".
Definition F2 : Move := mk_Move AxisZ 1 1 "F'".
Definition B1 : Move := mk_Move AxisZ (-1) 1 "B".
Definition B2 : Move := mk_Move AxisZ (-1) (-1) "B'".

(** The object literal [MOVES], its own properties in insertion order
    (the order of [Object.keys] and [Object.entries]). *)
Definition MOVES : list (string * Move) :=
  [ ("U1", U1);
    ("U2", U2);
    ("D1", D1);
    ("D2", D2);
    ("L1", L1);
    ("L2", L2);
    ("R1", R1);
    ("R2", R2);
    ("F1", F1);
    ("F2", F2);
    ("B1", B1);
    ("B2", B2) ]%string.

(** The own property [MOVES[key]], if there is one. *)
Fixpoint own_property (key : string) (table : list (string * Move))
  : option Move :=
  match table with
  | [] => None
  | (k, m) :: rest => if String.eqb key k then Some m else own_property key rest
  end.

(** The moves of the table. *)
Definition table_moves : list Move := map snd MOVES.

(** The table entry on the same axis and slice that turns the other way. *)
Definition table_inverse (m : Move) : option Move :=
  find (fun m' => Axis_eqb (axis m') (axis m)
                  && Z.eqb (slice m') (slice m)
                  && Z.eqb (direction m') (- direction m))
       table_moves.

(* ================================================================== *)
(** ** The cubie store *)
(* ================================================================== *)

(** The lattice point [(x, y, z)] as a [Vector3]. *)
Definition lattice_vec (p : Z * Z * Z) : THREE.Vector3 :=
  let '(a, b, c) := p in
  THREE.mk_Vector3 (Num.of_Z a) (Num.of_Z b) (Num.of_Z c).

(** The triples visited by the three nested loops, [x] outermost. *)
Definition coords : list Z := [-1; 0; 1]%Z.

Definition lattice : list (Z * Z * Z) :=
  flat_map (fun a => flat_map (fun b => map (fun c => (a, b, c)) coords) coords)
           coords.

Definition coord_string (c : Z) : string :=
  match c with
  | Z0 => "0"
  | Zpos _ => "1"
  | Zneg _ => "-1"
  end%string.

(** The template literal [`${x},${y},${z}`]. *)
Definition lattice_name (p : Z * Z * Z) : string :=
  let '(a, b, c) := p in
  (coord_string a ++ "," ++ coord_string b ++ "," ++ coord_string c)%string.

(** The initial store: [id] counts the pushes.  The name is the one the
    pivot component gives; the mesh component writes [`cubie-${id}`]
    there, and nothing reads it. *)
Fixpoint init_from (next_id : Z) (ps : list (Z * Z * Z)) : list Cubie :=
  match ps with
  | [] => []
  | p :: rest =>
      mk_Cubie next_id (lattice_vec p) THREE.identity (lattice_name p)
      :: init_from (next_id + 1) rest
  end.

Definition initial_cubies : list Cubie := init_from 0 lattice.

(** [isInSlice(pos, axis, sliceVal)] *)
Definition epsilon : Num.num := Num.of_frac 1 10.

Definition isInSlice (pos : THREE.Vector3) (ax : Axis) (sliceVal : Z) : bool :=
  match ax with
  | AxisX => Num.abs (THREE.x pos - Num.of_Z sliceVal) <? epsilon
  | AxisY => Num.abs (THREE.y pos - Num.of_Z sliceVal) <? epsilon
  | AxisZ => Num.abs (THREE.z pos - Num.of_Z sliceVal) <? epsilon
  end.

(** The unit vector of the move's axis. *)
Definition axisVec (ax : Axis) : THREE.Vector3 :=
  THREE.mk_Vector3 (match ax with AxisX => 1 | _ => 0 end)
                   (match ax with AxisY => 1 | _ => 0 end)
                   (match ax with AxisZ => 1 | _ => 0 end).

(** The quaternion of the quarter turn of [move]. *)
Definition quarterTurn (move : Move) : THREE.Quaternion :=
  THREE.setFromAxisAngle (axisVec (axis move)) (direction move).

(** What the commit writes for an affected cubie:
    [{ ...c, position: newPos, rotation: newRot }]. *)
Definition turned (qRot : THREE.Quaternion) (c : Cubie) : Cubie :=
  mk_Cubie (id c)
           (THREE.roundComponents (THREE.applyQuaternion (position c) qRot))
           (THREE.premultiply (rotation c) qRot)
           (cubie_name c).

(** The store update of [finishMove]: the slice is tested at the commit. *)
Definition finishMove (move : Move) (cubies : list Cubie) : list Cubie :=
  map (fun c => if isInSlice (position c) (axis move) (slice move)
                then turned (quarterTurn move) c
                else c)
      cubies.

(** The other component snapshots the ids of the slice when the turn starts
    and commits by id. *)
Definition includes (ids : list Z) (i : Z) : bool :=
  existsb (Z.eqb i) ids.

Definition idsInSlice (ax : Axis) (sliceVal : Z) (cubies : list Cubie)
  : list Z :=
  map id (filter (fun c => isInSlice (position c) ax sliceVal) cubies).

Definition sliceIds (move : Move) (cubies : list Cubie) : list Z :=
  idsInSlice (axis move) (slice move) cubies.

Definition commitActive (activeCubieIds : list Z) (move : Move)
           (cubies : list Cubie) : list Cubie :=
  map (fun c => if includes activeCubieIds (id c)
                then turned (quarterTurn move) c
                else c)
      cubies.

(** A run of completed moves, oldest first. *)
Definition completed (moves : list Move) (cubies : list Cubie) : list Cubie :=
  fold_left (fun cs m => finishMove m cs) moves cubies.

(** [handleMoveComplete] of [App], the [onMoveComplete] prop of both
    components: [prev.slice(1)]. *)
Definition handleMoveComplete (queue : list Move) : list Move := tl queue.

(* ================================================================== *)
(** ** The animation loop of the pivot component *)
(* ================================================================== *)

(** The component that turns a pivot group and commits in [finishMove].
    [progress] runs from 0 to 1, one being the quarter turn; [pivot] is the
    visual rotation of the pivot group, in quarter turns about the axis of
    the move.  The pivot group is mounted whenever a frame runs.  The
    queue is the [moveQueue] prop of [App], and a frame is one step: the
    commit, the pop of the queue and the reset of the refs happen
    together. *)
Module Pivot.

Record State : Set := mk_State {
  cubies : list Cubie;
  moveQueue : list Move;
  isAnimating : bool;
  currentMove : option Move;
  progress : Num.num;
  pivot : Num.num
}.

Definition initial : State :=
  mk_State initial_cubies [] false None 0 0.

(** First block of the frame callback: take the head of the queue. *)
Definition start (st : State) : State :=
  match isAnimating st, moveQueue st with
  | false, nextMove :: _ =>
      mk_State (cubies st) (moveQueue st) true (Some nextMove) 0 (pivot st)
  | _, _ => st
  end.

Definition speed (st : State) : Num.num :=
  if (5 <? List.length (moveQueue st))%nat then Num.of_Z 20 else Num.of_Z 6.

(** The progress this frame reaches. *)
Definition advanced (delta : Num.num) (st : State) : Num.num :=
  progress (start st) + delta * speed (start st).

(** [finishMove] as a whole: the store update, the reset of the refs, and
    [onMoveComplete()], which drops the head of the queue. *)
Definition finish (move : Move) (st : State) : State :=
  mk_State (finishMove move (cubies st)) (handleMoveComplete (moveQueue st))
           false None 0 0.

(** One call of the frame callback. *)
Definition useFrame (delta : Num.num) (st : State) : State :=
  let st1 := start st in
  match isAnimating st1, currentMove st1 with
  | true, Some move =>
      let p := progress st1 + delta * speed st1 in
      if 1 <=? p then finish move st1
      else mk_State (cubies st1) (moveQueue st1) true (Some move) p
                    (Num.of_Z (direction move) * p)
  | _, _ => st1
  end.

(** The queue grows at the tail at any time: [handleMove] with a key of
    the table appends one move, [scramble] a batch of them. *)
Definition enqueue (moves : list Move) (st : State) : State :=
  mk_State (cubies st) (moveQueue st ++ moves) (isAnimating st)
           (currentMove st) (progress st) (pivot st).

(** The states the component goes through. *)
Inductive reachable : State -> Prop :=
  | reach_initial : reachable initial
  | reach_frame (delta : Num.num) (st : State) :
      reachable st -> reachable (useFrame delta st)
  | reach_enqueue (moves : list Move) (st : State) :
      reachable st ->
      Forall (fun m => In m table_moves) moves ->
      reachable (enqueue moves st).

End Pivot.

(* ================================================================== *)
(** ** The animation loop of the mesh component *)
(* ================================================================== *)

(** The component that turns the meshes themselves.  It snapshots
    [activeCubieIds] when the turn starts and commits by id.  [target]
    stands for [Math.PI / 2]; the meshes it moves frame by frame belong to
    the renderer and are not part of the store. *)
Module Mesh.

Record State : Set := mk_State {
  cubies : list Cubie;
  moveQueue : list Move;
  isAnimating : bool;
  currentMove : option Move;
  moveProgress : Num.num;
  activeCubieIds : list Z
}.

Definition initial : State :=
  mk_State initial_cubies [] false None 0 [].

Definition ANIMATION_SPEED : Num.num := Num.of_Z 5.

Definition start (st : State) : State :=
  match isAnimating st, moveQueue st with
  | false, move :: _ =>
      mk_State (cubies st) (moveQueue st) true (Some move) 0
               (sliceIds move (cubies st))
  | _, _ => st
  end.

(** The progress this frame reaches, clamped to the target. *)
Definition advanced (target delta : Num.num) (st : State) : Num.num :=
  let st1 := start st in
  let step := ANIMATION_SPEED * delta in
  let frameRotation :=
    if target <? moveProgress st1 + step
    then target - moveProgress st1
    else step in
  moveProgress st1 + frameRotation.

Definition useFrame (target delta : Num.num) (st : State) : State :=
  let st1 := start st in
  match isAnimating st1, currentMove st1 with
  | true, Some move =>
      let p := advanced target delta st in
      if target <=? p
      then mk_State (commitActive (activeCubieIds st1) move (cubies st1))
                    (handleMoveComplete (moveQueue st1)) false None p
                    (activeCubieIds st1)
      else mk_State (cubies st1) (moveQueue st1) true (Some move) p
                    (activeCubieIds st1)
  | _, _ => st1
  end.

Definition enqueue (moves : list Move) (st : State) : State :=
  mk_State (cubies st) (moveQueue st ++ moves) (isAnimating st)
           (currentMove st) (moveProgress st) (activeCubieIds st).

Inductive reachable (target : Num.num) : State -> Prop :=
  | reach_initial : reachable target initial
  | reach_frame (delta : Num.num) (st : State) :
      reachable target st -> reachable target (useFrame target delta st)
  | reach_enqueue (moves : list Move) (st : State) :
      reachable target st ->
      Forall (fun m => In m table_moves) moves ->
      reachable target (enqueue moves st).

End Mesh.

(* ================================================================== *)
(** ** Face colours *)
(* ================================================================== *)

Inductive Material : Set :=
  | right | left | top | bottom | front | back | core.

(** The coordinates the mesh component recovers from the id:
    [id % 3 - 1], [floor((id % 9) / 3) - 1], [floor(id / 9) - 1]. *)
Definition iz (i : Z) : Z := (Z.rem i 3 - 1)%Z.
Definition iy (i : Z) : Z := (Z.rem i 9 / 3 - 1)%Z.
Definition ix (i : Z) : Z := (i / 9 - 1)%Z.

(** [myMaterials], in the order right, left, top, bottom, front, back. *)
Definition myMaterials (c : Cubie) : list Material :=
  [ if (ix (id c) =? 1)%Z then right else core;
    if (ix (id c) =? -1)%Z then left else core;
    if (iy (id c) =? 1)%Z then top else core;
    if (iy (id c) =? -1)%Z then bottom else core;
    if (iz (id c) =? 1)%Z then front else core;
    if (iz (id c) =? -1)%Z then back else core ].

(** The pivot component gives every cubie the same six materials. *)
Definition materials : list Material :=
  [right; left; top; bottom; front; back].

(** The same rule read off a lattice point. *)
Definition lattice_materials (p : Z * Z * Z) : list Material :=
  let '(a, b, c) := p in
  [ if (a =? 1)%Z then right else core;
    if (a =? -1)%Z then left else core;
    if (b =? 1)%Z then top else core;
    if (b =? -1)%Z then bottom else core;
    if (c =? 1)%Z then front else core;
    if (c =? -1)%Z then back else core ].

(* ================================================================== *)
(** ** The drag resolver *)
(* ================================================================== *)

Section Resolver.

(** What the resolver takes from outside the lattice arithmetic: the
    camera projection, the square root behind [Vector2.length], and the
    sine and cosine of [direction] times five degrees, the half of the
    ten-degree trial step. *)
Variable project : THREE.Vector3 -> THREE.Vector3.
Variable sqrt : Num.num -> Num.num.
Variable step_sin step_cos : Z -> Num.num.

(** [v.normalize()] is [v.divideScalar(v.length() || 1)]. *)
Definition normalize (v : THREE.Vector2) : THREE.Vector2 :=
  let len := sqrt (THREE.x2 v * THREE.x2 v + THREE.y2 v * THREE.y2 v) in
  let d := if Num.eqb len 0 then 1 else len in
  THREE.mk_Vector2 (THREE.x2 v * (1 / d)) (THREE.y2 v * (1 / d)).

Definition sub2 (v w : THREE.Vector2) : THREE.Vector2 :=
  THREE.mk_Vector2 (THREE.x2 v - THREE.x2 w) (THREE.y2 v - THREE.y2 w).

Definition dot2 (v w : THREE.Vector2) : Num.num :=
  THREE.x2 v * THREE.x2 w + THREE.y2 v * THREE.y2 w.

(** The trial displacement of a position under a small step of [move]. *)
Definition delta3D (pos : THREE.Vector3) (move : Move) : THREE.Vector3 :=
  let q := THREE.fromAxisHalfAngle (axisVec (axis move))
             (step_sin (direction move)) (step_cos (direction move)) in
  THREE.sub (THREE.applyQuaternion pos q) pos.

(** The score of a candidate.  [rotatedPos.sub(originalPos)] works in
    place, so the vector projected as [p2] is the displacement itself. *)
Definition score (pos : THREE.Vector3) (move : Move)
           (dragDir : THREE.Vector2) : Num.num :=
  let rotatedPos := delta3D pos move in
  let p1 := project pos in
  let p2 := project rotatedPos in
  let p1Screen := THREE.mk_Vector2 (THREE.x p1) (- THREE.y p1) in
  let p2Screen := THREE.mk_Vector2 (THREE.x p2) (- THREE.y p2) in
  dot2 (normalize (sub2 p2Screen p1Screen)) dragDir.

(** [score > maxScore], where [None] is the initial [-Infinity]. *)
Definition beats (s : Num.num) (maxScore : option Num.num) : bool :=
  match maxScore with
  | None => true
  | Some m => m <? s
  end.

(** The body of the [forEach] over [Object.entries(MOVES)]. *)
Definition consider (cubie : Cubie) (dragDir : THREE.Vector2)
           (acc : option Num.num * string) (entry : string * Move)
  : option Num.num * string :=
  let '(key, move) := entry in
  if negb (isInSlice (position cubie) (axis move) (slice move)) then acc
  else if THREE.lengthSq (delta3D (position cubie) move) <? Num.of_frac 1 1000
  then acc
  else
    let s := score (position cubie) move dragDir in
    if beats s (fst acc) then (Some s, key) else acc.

(** [determineBestMove]: the key of the best candidate, or [None] for the
    [null] it returns. *)
Definition determineBestMove (cubie : Cubie) (dragDelta : THREE.Vector2)
  : option string :=
  let dragDir := normalize dragDelta in
  let '(maxScore, bestMoveKey) :=
    fold_left (consider cubie dragDir) MOVES (None, EmptyString) in
  match maxScore with
  | Some m => if Num.of_frac 1 2 <? m then Some bestMoveKey else None
  | None => None
  end.

End Resolver.

(* ================================================================== *)
(** ** App.tsx: the queue handlers *)
(* ================================================================== *)

(** What a read [MOVES[key]] evaluates to.  [MOVES] is an object literal,
    so a key that is not an own property is looked up on
    [Object.prototype]. *)
Inductive Value : Set :=
  | Undefined
  | OfTable (move : Move)
  | Inherited (key : string).

Definition Object_prototype : list string :=
  [ "constructor"; "__defineGetter__"; "__defineSetter__"; "hasOwnProperty";
    "__lookupGetter__"; "__lookupSetter__"; "isPrototypeOf";
    "propertyIsEnumerable"; "toString"; "valueOf"; "__proto__";
    "toLocaleString" ]%string.

Definition get (key : string) : Value :=
  match own_property key MOVES with
  | Some m => OfTable m
  | None =>
      if existsb (String.eqb key) Object_prototype
      then Inherited key
      else Undefined
  end.

(** The test [if (move)]. *)
Definition truthy (v : Value) : bool :=
  match v with
  | Undefined => false
  | _ => true
  end.

(** [handleMove(moveKey)] on the queue as it is at run time. *)
Definition handleMove (moveKey : string) (queue : list Value) : list Value :=
  let move := get moveKey in
  if truthy move then queue ++ [move] else queue.

(** *** Scramble *)

(** The results of the successive [randInt(0, keys.length - 1)] calls are
    given as a list.  A call of [scramble] either returns, or is still in
    a loop when the list ends, or reads [move.axis] of [undefined], which
    an index outside the keys would cause. *)
Inductive Outcome (A : Type) : Type :=
  | Returns (a : A)
  | StillDrawing
  | Throws.

Arguments Returns {A} a.
Arguments StillDrawing {A}.
Arguments Throws {A}.

Definition sameAxis (move : Move) (lastAxis : option Axis) : bool :=
  match lastAxis with
  | None => false
  | Some a => Axis_eqb (axis move) a
  end.

(** [MOVES[keys[i]]] *)
Definition drawn (i : nat) : option Move := nth_error table_moves i.

(** The inner [while (move.axis === lastAxis)]. *)
Fixpoint redraw (lastAxis : option Axis) (move : Move) (draws : list nat)
  : Outcome (Move * list nat) :=
  if sameAxis move lastAxis then
    match draws with
    | [] => StillDrawing
    | i :: rest =>
        match drawn i with
        | None => Throws
        | Some move' => redraw lastAxis move' rest
        end
    end
  else Returns (move, draws).

(** The [for] loop with [n] rounds to go. *)
Fixpoint scrambleLoop (n : nat) (lastAxis : option Axis)
         (newMoves : list Move) (draws : list nat)
  : Outcome (list Move * list nat) :=
  match n with
  | O => Returns (newMoves, draws)
  | S n' =>
      match draws with
      | [] => StillDrawing
      | i :: rest =>
          match drawn i with
          | None => Throws
          | Some move =>
              match redraw lastAxis move rest with
              | Returns (move', rest') =>
                  scrambleLoop n' (Some (axis move')) (newMoves ++ [move'])
                               rest'
              | StillDrawing => StillDrawing
              | Throws => Throws
              end
          end
      end
  end.

(** The moves one call of [scramble] appends, and the draws left over. *)
Definition scramble (draws : list nat) : Outcome (list Move * list nat) :=
  scrambleLoop 20 None [] draws.

(** No two neighbours on the same axis. *)
Fixpoint alternating (moves : list Move) : Prop :=
  match moves with
  | m1 :: ((m2 :: _) as rest) => axis m1 <> axis m2 /\ alternating rest
  | _ => True
  end.

(* ================================================================== *)
(** ** Integer picture of a quarter turn *)
(* ================================================================== *)

(** The quarter turn on integer triples: [d = 1] is the positive sense
    about the axis.  The lemmas below show that the commit acts this way
    on lattice positions. *)
Definition turn (ax : Axis) (d : Z) (p : Z * Z * Z) : Z * Z * Z :=
  let '(a, b, c) := p in
  match ax with
  | AxisX => (a, (- d * c)%Z, (d * b)%Z)
  | AxisY => ((d * c)%Z, b, (- d * a)%Z)
  | AxisZ => ((- d * b)%Z, (d * a)%Z, c)
  end.

Definition along (ax : Axis) (p : Z * Z * Z) : Z :=
  let '(a, b, c) := p in
  match ax with
  | AxisX => a
  | AxisY => b
  | AxisZ => c
  end.

Definition slice_map (m : Move) (p : Z * Z * Z) : Z * Z * Z :=
  if (along (axis m) p =? slice m)%Z then turn (axis m) (direction m) p else p.

(** What the commit does to one position, and to one cubie. *)
Definition position_step (m : Move) (v : THREE.Vector3) : THREE.Vector3 :=
  if isInSlice v (axis m) (slice m)
  then THREE.roundComponents (THREE.applyQuaternion v (quarterTurn m))
  else v.

Definition commit1 (m : Move) (c : Cubie) : Cubie :=
  if isInSlice (position c) (axis m) (slice m)
  then turned (quarterTurn m) c
  else c.

(** A cubie that sits on a lattice point. *)
Definition on_lattice (c : Cubie) : Prop :=
  exists p, In p lattice /\ position c = lattice_vec p.

(** The commit agrees with the integer picture at [p]. *)
Definition agrees_at (m : Move) (p : Z * Z * Z) : bool :=
  THREE.Vector3_eqb (position_step m (lattice_vec p))
                    (lattice_vec (slice_map m p))
  && Bool.eqb (isInSlice (lattice_vec p) (axis m) (slice m))
              (along (axis m) p =? slice m)%Z.

(** The cubie with its quaternion negated. *)
Definition negated (c : Cubie) : Cubie :=
  mk_Cubie (id c) (position c) (THREE.negate (rotation c)) (cubie_name c).

(** The store after a run of moves committed by id, as the mesh component
    does. *)
Definition completedById (moves : list Move) (cubies : list Cubie)
  : list Cubie :=
  fold_left (fun cs m => commitActive (sliceIds m cs) m cs) moves cubies.

(** The sign of [N + M sqrt 2] for integers [N] and [M]; [Num.sgn] is
    this sign of the numerators over a common denominator. *)
Definition sgnZ (N M : Z) : comparison :=
  match (N ?= 0)%Z, (M ?= 0)%Z with
  | Eq, cb => cb
  | ca, Eq => ca
  | Gt, Gt => Gt
  | Lt, Lt => Lt
  | Gt, Lt => (N * N ?= 2 * (M * M))%Z
  | Lt, Gt => (2 * (M * M) ?= N * N)%Z
  end.

(** Moves of the table only. *)
Definition from_table (ms : list Move) : Prop :=
  Forall (fun m => In m table_moves) ms.

(** The axis of the last move of a list, [None] for the empty list: the
    value of [lastAxis] when the list is [newMoves]. *)
Definition lastAxisOf (acc : list Move) : option Axis :=
  fold_left (fun _ m => Some (axis m)) acc None.

(** A cubie at the centre of a face: on a lattice point with exactly one
    coordinate that is not zero. *)
Definition face_centre (v : THREE.Vector3) : Prop :=
  exists a b c, v = lattice_vec (a, b, c)
                /\ (Z.abs a + Z.abs b + Z.abs c = 1)%Z.

Definition zero_vector : THREE.Vector3 := THREE.mk_Vector3 0 0 0.

(* ================================================================== *)
(** ** The rest of the components *)
(* ================================================================== *)

(** [randInt(min, max)] of [App.tsx], given the value of [Math.random()]:
    [Math.floor(random * (max - min + 1)) + min]. *)
Definition randInt (min max : Z) (random : Num.num) : Z :=
  (Num.floor (random * Num.of_Z (max - min + 1)) + min)%Z.

(** [Object.keys(MOVES)], and the index [scramble] draws into it. *)
Definition keys : list string := map fst MOVES.

Definition randomKeyIndex (random : Num.num) : Z :=
  randInt 0 (Z.of_nat (List.length keys) - 1) random.

(** [Math.sign] *)
Definition Math_sign (x : Num.num) : Z :=
  match Num.sgn x with
  | Lt => (-1)%Z
  | Eq => 0%Z
  | Gt => 1%Z
  end.

(** *** Controls.tsx *)

Record Group : Set := mk_Group { group_name : string; cw : string; ccw : string }.

Definition GROUPS : list Group :=
  [ mk_Group "Front (F)" "F1" "F2";
    mk_Group "Back (B)" "B1" "B2";
    mk_Group "Up (U)" "U1" "U2";
    mk_Group "Down (D)" "D1" "D2";
    mk_Group "Left (L)" "L1" "L2";
    mk_Group "Right (R)" "R1" "R2" ]%string.

(** The keys the buttons pass to [onMove], group by group. *)
Definition buttonKeys : list string :=
  flat_map (fun g => [cw g; ccw g]) GROUPS.

(** The text of a [ControlButton]:
    [moveKey.substring(0, 1)] and a prime when the key includes a 2. *)
Definition buttonLabel (moveKey : string) : string :=
  (substring 0 1 moveKey
   ++ match index 0 "2" moveKey with
      | Some _ => "'"
      | None => EmptyString
      end)%string.

(** [disabled={moveQueue.length > 5}] *)
Definition controlsDisabled (queue : list Move) : bool :=
  (5 <? List.length queue)%nat.

(** *** The two groups the pivot component renders *)

(** The filter of the pivot group and the filter of the static group, as
    written: the second is not spelled as the negation of the first. *)
Definition inPivotGroup (st : Pivot.State) (c : Cubie) : bool :=
  Pivot.isAnimating st
  && match Pivot.currentMove st with
     | Some m => isInSlice (position c) (axis m) (slice m)
     | None => false
     end.

Definition inStaticGroup (st : Pivot.State) (c : Cubie) : bool :=
  negb (Pivot.isAnimating st)
  || match Pivot.currentMove st with
     | Some m => negb (isInSlice (position c) (axis m) (slice m))
     | None => true
     end.

Definition pivotGroup (st : Pivot.State) : list Cubie :=
  filter (inPivotGroup st) (Pivot.cubies st).

Definition staticGroup (st : Pivot.State) : list Cubie :=
  filter (inStaticGroup st) (Pivot.cubies st).

(** *** The frame loops with the log of what was enqueued *)

(** The runs of the pivot component, with every move ever appended to the
    queue, oldest first.  Any value of type [Move] may be appended. *)
Inductive PivotRun : list Move -> Pivot.State -> Prop :=
  | pivot_run_initial : PivotRun [] Pivot.initial
  | pivot_run_frame (log : list Move) (delta : Num.num) (st : Pivot.State) :
      PivotRun log st -> PivotRun log (Pivot.useFrame delta st)
  | pivot_run_enqueue (log moves : list Move) (st : Pivot.State) :
      PivotRun log st -> PivotRun (log ++ moves) (Pivot.enqueue moves st).

Inductive MeshRun (target : Num.num) : list Move -> Mesh.State -> Prop :=
  | mesh_run_initial : MeshRun target [] Mesh.initial
  | mesh_run_frame (log : list Move) (delta : Num.num) (st : Mesh.State) :
      MeshRun target log st ->
      MeshRun target log (Mesh.useFrame target delta st)
  | mesh_run_enqueue (log moves : list Move) (st : Mesh.State) :
      MeshRun target log st ->
      MeshRun target (log ++ moves) (Mesh.enqueue moves st).

(** *** Pointer handlers of the pivot component *)

Module PivotDrag.

(** [dragRef.current] *)
Record Drag : Set := mk_Drag { startScreen : THREE.Vector2; drag_cubie : Cubie }.

Section Handlers.

Variable project : THREE.Vector3 -> THREE.Vector3.
Variable sqrt : Num.num -> Num.num.
Variable step_sin step_cos : Z -> Num.num.

(** [v.length()] of a [Vector2] *)
Definition length2 (v : THREE.Vector2) : Num.num :=
  sqrt (THREE.x2 v * THREE.x2 v + THREE.y2 v * THREE.y2 v).

(** [handlePointerDown]: the new [dragRef.current]. *)
Definition handlePointerDown (isAnimating : bool) (button : Z)
           (clientX clientY : Num.num) (cubie : Cubie)
           (dragRef : option Drag) : option Drag :=
  if isAnimating || negb (button =? 0)%Z then dragRef
  else Some (mk_Drag (THREE.mk_Vector2 clientX clientY) cubie).

(** [handlePointerUp] with [onManualMove] bound to [handleMove] of [App]:
    the new [dragRef.current] and the new queue. *)
Definition handlePointerUp (dragRef : option Drag)
           (clientX clientY : Num.num) (queue : list Value)
  : option Drag * list Value :=
  match dragRef with
  | None => (None, queue)
  | Some d =>
      let endScreen := THREE.mk_Vector2 clientX clientY in
      let delta := sub2 endScreen (startScreen d) in
      if Num.of_Z 20 <? length2 delta then
        match determineBestMove project sqrt step_sin step_cos
                (drag_cubie d) delta with
        | Some moveKey =>
            if String.eqb moveKey EmptyString then (None, queue)
            else (None, handleMove moveKey queue)
        | None => (None, queue)
        end
      else (None, queue)
  end.

End Handlers.

End PivotDrag.

(** *** Pointer handler of the mesh component *)

Module MeshDrag.

(** [dragStart.current] *)
Record DragStart : Set :=
  mk_DragStart { point : THREE.Vector3; normal : THREE.Vector3; cubieId : Z }.

(** [v[axis]] *)
Definition component (v : THREE.Vector3) (ax : Axis) : Num.num :=
  match ax with
  | AxisX => THREE.x v
  | AxisY => THREE.y v
  | AxisZ => THREE.z v
  end.

(** [crossVectors(a, b)] *)
Definition crossVectors (a b : THREE.Vector3) : THREE.Vector3 :=
  THREE.mk_Vector3 (THREE.y a * THREE.z b - THREE.z a * THREE.y b)
                   (THREE.z a * THREE.x b - THREE.x a * THREE.z b)
                   (THREE.x a * THREE.y b - THREE.y a * THREE.x b).

(** The dominant component of [rotAxisVec]: [x], then [y] if it is
    larger than [x], then [z] if it is larger than both. *)
Definition rotationAxis (v : THREE.Vector3) : Axis :=
  let rotAxis :=
    if Num.abs (THREE.x v) <? Num.abs (THREE.y v) then AxisY else AxisX in
  if (Num.abs (THREE.y v) <? Num.abs (THREE.z v))
     && (Num.abs (THREE.x v) <? Num.abs (THREE.z v))
  then AxisZ else rotAxis.

(** The [find] over [Object.entries(MOVES)]. *)
Definition matchedMove (rotAxis : Axis) (rotSlice : Num.num) (dir : Z)
  : option (string * Move) :=
  find (fun entry : string * Move =>
          Axis_eqb (axis (snd entry)) rotAxis
          && Num.eqb (Num.of_Z (slice (snd entry))) rotSlice
          && (direction (snd entry) =? dir)%Z)
       MOVES.

Section Handlers.

Variable sqrt : Num.num -> Num.num.

(** [v.length()] and [v.normalize()] of a [Vector3] *)
Definition length3 (v : THREE.Vector3) : Num.num := sqrt (THREE.lengthSq v).

Definition normalize3 (v : THREE.Vector3) : THREE.Vector3 :=
  let len := length3 v in
  let d := if Num.eqb len 0 then 1 else len in
  THREE.mk_Vector3 (THREE.x v * (1 / d)) (THREE.y v * (1 / d))
                   (THREE.z v * (1 / d)).

(** [handlePointerMove]: the key it passes to [onManualMove], if any.
    [hit] is the point of the first intersection with a cubie, if there is
    one. *)
Definition handlePointerMove (isDragging isAnimating : bool)
           (dragStart : option DragStart) (hit : option THREE.Vector3)
           (cubies : list Cubie) : option string :=
  if negb isDragging || isAnimating then None
  else
    match dragStart, hit with
    | Some start, Some hitPoint =>
        let moveVector := THREE.sub hitPoint (point start) in
        if length3 moveVector <? Num.of_frac 1 4 then None
        else
          match find (fun c => (id c =? cubieId start)%Z) cubies with
          | None => None
          | Some cubie =>
              let moveDirNorm := normalize3 moveVector in
              let rotAxisVec := crossVectors (normal start) moveDirNorm in
              let rotAxis := rotationAxis rotAxisVec in
              let rotDirRaw := component rotAxisVec rotAxis in
              let rotSlice := Num.round (component (position cubie) rotAxis) in
              option_map fst
                (matchedMove rotAxis rotSlice (Math_sign rotDirRaw * -1)%Z)
          end
    | _, _ => None
    end.

End Handlers.

End MeshDrag.

(* ================================================================== *)
(** ** First in, first out *)
(* ================================================================== *)

(** What holds along every run of the pivot component. *)
Definition PivotOrdered (log : list Move) (st : Pivot.State) : Prop :=
  exists done : list Move,
    log = done ++ Pivot.moveQueue st
    /\ Pivot.cubies st = completed done initial_cubies
    /\ (Pivot.isAnimating st = true ->
        exists m q, Pivot.currentMove st = Some m
                    /\ Pivot.moveQueue st = m :: q)
    /\ (Pivot.isAnimating st = false -> Pivot.currentMove st = None).

Definition MeshOrdered (log : list Move) (st : Mesh.State) : Prop :=
  exists done : list Move,
    log = done ++ Mesh.moveQueue st
    /\ Mesh.cubies st = completed done initial_cubies
    /\ (Mesh.isAnimating st = true ->
        exists m q, Mesh.currentMove st = Some m
                    /\ Mesh.moveQueue st = m :: q
                    /\ Mesh.activeCubieIds st = sliceIds m (Mesh.cubies st))
    /\ (Mesh.isAnimating st = false -> Mesh.currentMove st = None).

(* ================================================================== *)
(** ** The real number behind an exact number *)
(* ================================================================== *)

(** [rat + irr * sqrt 2] as a real number; the order of [Num] is the order
    of these values ([NumOrder.sgn_val] below). *)
Definition real_of (x : Num.num) : Rdefinitions.R :=
  Rdefinitions.Rplus
    (Rdefinitions.Q2R (this (Num.rat_part x)))
    (Rdefinitions.Rmult (Rdefinitions.Q2R (this (Num.irr_part x)))
                        (R_sqrt.sqrt (Rdefinitions.IZR 2))).

(* ================================================================== *)
(** ** Facts about the numbers *)
(* ================================================================== *)

Module NumFacts.
Import Num.
Local Open Scope Qc_scope.

Lemma Qeq_bool_Qc (a b : Qc) : Qeq_bool a b = true -> a = b.
Proof. intro H. apply Qc_is_canon, Qeq_bool_iff, H. Qed.

Lemma eqb_eq (a b : num) : eqb a b = true -> a = b.
Proof.
  destruct a as [a1 a2], b as [b1 b2]; unfold eqb; cbn [rat_part irr_part].
  intro H. apply andb_prop in H as [H1 H2].
  f_equal; now apply Qeq_bool_Qc.
Qed.

Lemma eqb_refl (a : num) : eqb a a = true.
Proof.
  unfold eqb. apply andb_true_intro; split; apply Qeq_bool_iff; reflexivity.
Qed.

Lemma num_ring_theory : ring_theory zero one add mul sub opp (@eq num).
Proof.
  constructor; intros;
    repeat match goal with x : num |- _ => destruct x end;
    unfold zero, one, add, mul, sub, opp; cbn [rat_part irr_part];
    f_equal; ring.
Qed.

Lemma two_plus : two = add one one.
Proof. unfold two, add, one. cbn [rat_part irr_part]. f_equal; ring. Qed.

Lemma of_Z_0 : of_Z 0 = zero.
Proof. reflexivity. Qed.

Lemma of_Z_1 : of_Z 1 = one.
Proof. reflexivity. Qed.

Lemma of_Z_m1 : of_Z (-1) = opp one.
Proof. apply eqb_eq. vm_compute. reflexivity. Qed.

(** [sin^2 + cos^2 = 1] at 45 degrees. *)
Lemma half_sqrt2_square : add (mul half_sqrt2 half_sqrt2) (mul half_sqrt2 half_sqrt2) = one.
Proof. apply eqb_eq. vm_compute. reflexivity. Qed.

(** The sign is odd, so [x <= y] is the negation of [y < x]. *)
Lemma Qccompare_opp_0 (a : Qc) : (- a ?= 0) = CompOpp (a ?= 0).
Proof.
  unfold Qccompare. cbn [this Qcopp Q2Qc].
  rewrite (Qred_correct (- this a)).
  destruct (this a) as [n d]. unfold Qcompare, Qopp. cbn [Qnum Qden].
  rewrite !Z.mul_1_r. cbn. now destruct n.
Qed.

Lemma Qccompare_antisym (a b : Qc) : CompOpp (a ?= b) = (b ?= a).
Proof. unfold Qccompare. apply Qcompare_antisym. Qed.

Lemma sgn_opp (x : num) : sgn (opp x) = CompOpp (sgn x).
Proof.
  destruct x as [a b]. unfold sgn, opp. cbn [rat_part irr_part].
  rewrite !Qccompare_opp_0.
  replace (- a * - a) with (a * a) by ring.
  replace (- b * - b) with (b * b) by ring.
  destruct (a ?= 0), (b ?= 0); cbn; try reflexivity;
    now rewrite Qccompare_antisym.
Qed.

Lemma sub_opp (x y : num) : sub y x = opp (sub x y).
Proof.
  destruct x, y. unfold sub, opp. cbn [rat_part irr_part]. f_equal; ring.
Qed.

Lemma leb_ltb (x y : num) : leb x y = negb (ltb y x).
Proof.
  unfold leb, ltb, compare. rewrite (sub_opp x y), sgn_opp.
  now destruct (sgn (sub x y)).
Qed.

(** *** The floor is the floor *)

Lemma Qccompare_scaled (a b : Qc) (N M : Z) (D : positive) :
  (this a == N # D)%Q -> (this b == M # D)%Q -> (a ?= b) = (N ?= M)%Z.
Proof.
  intros Ha Hb. unfold Qccompare. rewrite Ha, Hb.
  unfold Qcompare. cbn [Qnum Qden].
  symmetry. apply Zmult_compare_compat_r. reflexivity.
Qed.

Lemma this_zero (D : positive) : (this 0 == 0 # D)%Q.
Proof. reflexivity. Qed.

Lemma this_square (a : Qc) (N : Z) (D : positive) :
  (this a == N # D)%Q -> (this (a * a) == (N * N) # (D * D))%Q.
Proof.
  intro Ha. cbn [this Qcmult Q2Qc]. rewrite Qred_correct, Ha. reflexivity.
Qed.

Lemma this_double (a : Qc) (N : Z) (D : positive) :
  (this a == N # D)%Q -> (this ((1 + 1) * a) == (2 * N) # D)%Q.
Proof.
  intro Ha. cbn [this Qcmult Qcplus Q2Qc]. rewrite !Qred_correct, Ha.
  unfold Qeq, Qmult, Qplus. cbn [Qnum Qden]. lia.
Qed.

Lemma sgn_scaled (a b : Qc) (N M : Z) (D : positive) :
  (this a == N # D)%Q -> (this b == M # D)%Q ->
  sgn (mk_num a b) = sgnZ N M.
Proof.
  intros Ha Hb. unfold sgn, sgnZ. cbn [rat_part irr_part].
  rewrite (Qccompare_scaled a 0 N 0 D Ha (this_zero D)).
  rewrite (Qccompare_scaled b 0 M 0 D Hb (this_zero D)).
  rewrite (Qccompare_scaled (a * a) ((1 + 1) * (b * b)) (N * N) (2 * (M * M))
             (D * D) (this_square a N D Ha)
             (this_double (b * b) (M * M) (D * D) (this_square b M D Hb))).
  rewrite (Qccompare_scaled ((1 + 1) * (b * b)) (a * a) (2 * (M * M)) (N * N)
             (D * D)
             (this_double (b * b) (M * M) (D * D) (this_square b M D Hb))
             (this_square a N D Ha)).
  reflexivity.
Qed.

(** [sqrt 2] is irrational. *)
Lemma sqrt2_irrational_nat (k : nat) :
  forall n m : Z, (Z.abs n <= Z.of_nat k)%Z -> (n * n = 2 * (m * m))%Z -> m = 0%Z.
Proof.
  induction k as [| k IH]; intros n m Hk H.
  - assert (n = 0)%Z by lia. subst n. nia.
  - destruct (Z.Even_or_Odd n) as [[h Hn] | [h Hn]]; [| nia].
    destruct (Z.Even_or_Odd m) as [[j Hm] | [j Hm]]; [| nia].
    subst n m.
    assert (j = 0)%Z; [| lia].
    apply (IH h j); nia.
Qed.

Lemma sqrt2_irrational (n m : Z) : (n * n = 2 * (m * m))%Z -> m = 0%Z.
Proof. apply (sqrt2_irrational_nat (Z.to_nat (Z.abs n))). lia. Qed.

Lemma this_sub_Z (a : Qc) (g : Z) (s : positive) :
  (this (a - qz g)
   == (Qnum (this a) * Zpos s - g * (Zpos (Qden (this a)) * Zpos s))
      # (Qden (this a) * s))%Q.
Proof.
  unfold qz. cbn [this Qcminus Qcplus Qcopp Q2Qc].
  rewrite !Qred_correct.
  destruct (this a) as [p q]. unfold Qeq, Qplus, Qopp, inject_Z.
  cbn [Qnum Qden]. rewrite !Pos2Z.inj_mul. ring.
Qed.

Lemma this_sub_0 (b : Qc) (q : positive) :
  (this (b - 0) == (Qnum (this b) * Zpos q) # (q * Qden (this b)))%Q.
Proof.
  cbn [this Qcminus Qcplus Qcopp Q2Qc].
  rewrite !Qred_correct.
  destruct (this b) as [r s]. unfold Qeq, Qplus, Qopp.
  cbn [Qnum Qden]. rewrite !Pos2Z.inj_mul. ring.
Qed.

(** The sign of [x - g] for an integer [g], in integers. *)
Lemma sgn_sub_of_Z (x : num) (g : Z) :
  let a := this (rat_part x) in
  let b := this (irr_part x) in
  let N := (Qnum a * Zpos (Qden b))%Z in
  let M := (Qnum b * Zpos (Qden a))%Z in
  let D := (Zpos (Qden a) * Zpos (Qden b))%Z in
  sgn (sub x (of_Z g)) = sgnZ (N - g * D) M.
Proof.
  destruct x as [a b]. cbv zeta. cbn [rat_part irr_part].
  unfold sub, of_Z. cbn [rat_part irr_part].
  apply (sgn_scaled _ _ _ _ (Qden (this a) * Qden (this b))).
  - apply this_sub_Z.
  - apply this_sub_0.
Qed.

(** [floor x <= x < floor x + 1], for every number of the field. *)
Lemma floor_spec (x : num) :
  leb (of_Z (floor x)) x = true /\ ltb x (of_Z (floor x + 1)) = true.
Proof.
  rewrite leb_ltb. unfold ltb, compare.
  rewrite !sgn_sub_of_Z. unfold floor.
  generalize (Qnum (this (rat_part x)) * Zpos (Qden (this (irr_part x))))%Z.
  generalize (Qnum (this (irr_part x)) * Zpos (Qden (this (rat_part x))))%Z.
  assert (HD : (0 < Zpos (Qden (this (rat_part x)))
                    * Zpos (Qden (this (irr_part x))))%Z) by lia.
  revert HD.
  generalize (Zpos (Qden (this (rat_part x)))
              * Zpos (Qden (this (irr_part x))))%Z.
  intros D HD M N.
  pose proof (Z.sqrt_spec (2 * M * M) ltac:(nia)) as Hr.
  pose proof (Z.sqrt_nonneg (2 * M * M)) as Hr0.
  assert (Hirr : (Z.sqrt (2 * M * M) * Z.sqrt (2 * M * M) = 2 * (M * M)
                  -> M = 0)%Z) by apply sqrt2_irrational.
  revert Hr Hr0 Hirr. generalize (Z.sqrt (2 * M * M)). intros r Hr Hr0 Hirr.
  assert (Hfl : exists fl,
             fl = match M with
                  | 0%Z => 0%Z
                  | Zpos _ => r
                  | Zneg _ => (- r - 1)%Z
                  end) by (eexists; reflexivity).
  destruct Hfl as [fl Hfl]. rewrite <- Hfl.
  pose proof (Z.div_mod (N + fl) D ltac:(lia)) as Hdm.
  pose proof (Z.mod_pos_bound (N + fl) D HD) as Hmod.
  revert Hdm Hmod. generalize ((N + fl) mod D)%Z. generalize ((N + fl) / D)%Z.
  intros f rem Hdm Hmod.
  cbv zeta in Hr. unfold sgnZ.
  destruct M as [| Mp | Mp]; cbv iota in Hfl; subst fl.
  - (* a rational *)
    cbn [Z.compare].
    destruct (N - f * D ?= 0)%Z eqn:E1, (N - (f + 1) * D ?= 0)%Z eqn:E2;
      try (split; reflexivity);
      rewrite ?Z.compare_eq_iff, ?Z.compare_lt_iff, ?Z.compare_gt_iff in *;
      lia.
  - (* [sqrt 2] with a positive coefficient *)
    assert (E0 : (Zpos Mp ?= 0)%Z = Gt) by reflexivity. rewrite E0.
    assert (H1 : (- r <= N - f * D)%Z) by lia.
    assert (H2 : (N - (f + 1) * D <= - r - 1)%Z) by lia.
    revert H1 H2. generalize (N - f * D)%Z, (N - (f + 1) * D)%Z.
    intros lo hi H1 H2. split.
    + destruct (lo ?= 0)%Z eqn:E1; try reflexivity.
      rewrite Z.compare_lt_iff in E1.
      assert (0 <= (r + lo) * (r - lo))%Z by (apply Z.mul_nonneg_nonneg; lia).
      destruct (2 * (Z.pos Mp * Z.pos Mp) ?= lo * lo)%Z eqn:E3;
        try reflexivity.
      rewrite Z.compare_lt_iff in E3. lia.
    + assert (0 <= (- hi - (r + 1)) * (- hi + (r + 1)))%Z
        by (apply Z.mul_nonneg_nonneg; lia).
      destruct (hi ?= 0)%Z eqn:E1;
        rewrite ?Z.compare_eq_iff, ?Z.compare_gt_iff in E1; try lia.
      destruct (2 * (Z.pos Mp * Z.pos Mp) ?= hi * hi)%Z eqn:E3;
        try reflexivity;
        rewrite ?Z.compare_eq_iff, ?Z.compare_gt_iff in E3; lia.
  - (* [sqrt 2] with a negative coefficient *)
    assert (E0 : (Zneg Mp ?= 0)%Z = Lt) by reflexivity. rewrite E0.
    assert (H1 : (r + 1 <= N - f * D)%Z) by lia.
    assert (H2 : (N - (f + 1) * D <= r)%Z) by lia.
    revert H1 H2. generalize (N - f * D)%Z, (N - (f + 1) * D)%Z.
    intros lo hi H1 H2. split.
    + assert (0 <= (lo - (r + 1)) * (lo + (r + 1)))%Z
        by (apply Z.mul_nonneg_nonneg; lia).
      destruct (lo ?= 0)%Z eqn:E1;
        rewrite ?Z.compare_eq_iff, ?Z.compare_lt_iff in E1; try lia.
      destruct (lo * lo ?= 2 * (Z.neg Mp * Z.neg Mp))%Z eqn:E3;
        try reflexivity.
      rewrite Z.compare_lt_iff in E3. lia.
    + destruct (hi ?= 0)%Z eqn:E1; try reflexivity.
      rewrite Z.compare_gt_iff in E1.
      assert (r * r <> 2 * (Z.neg Mp * Z.neg Mp))%Z
        by (intro E; apply Hirr in E; lia).
      assert (0 <= (r - hi) * (r + hi))%Z by (apply Z.mul_nonneg_nonneg; lia).
      destruct (hi * hi ?= 2 * (Z.neg Mp * Z.neg Mp))%Z eqn:E3;
        try reflexivity;
        rewrite ?Z.compare_eq_iff, ?Z.compare_gt_iff in E3; lia.
Qed.

(** [Math.round] leaves an integer alone. *)
Lemma floor_of_Z (n : Z) : floor (add (of_Z n) (of_frac 1 2)) = n.
Proof.
  unfold floor, add, of_Z, of_frac, qz, qfrac. cbn [rat_part irr_part].
  assert (E : this (0 + 0) = 0%Q) by reflexivity.
  rewrite E. cbn [Qnum Qden].
  assert (H : (this (Q2Qc (inject_Z n) + Q2Qc (1 # 2)) == (2 * n + 1) # 2)%Q).
  { cbn [this Qcplus Q2Qc]. rewrite !Qred_correct.
    unfold Qeq, Qplus, inject_Z; cbn [Qnum Qden]. lia. }
  destruct (this (Q2Qc (inject_Z n) + Q2Qc (1 # 2))) as [p q] eqn:Epq.
  unfold Qeq in H; cbn [Qnum Qden] in *.
  rewrite !Z.mul_1_r, Z.add_0_r.
  symmetry. apply Z.div_unique with (r := ((p - n * Zpos q))%Z); lia.
Qed.

(** On a rational the floor is the floor of the quotient. *)
Lemma floor_of_frac (n : Z) (d : positive) :
  floor (of_frac n d) = (n / Zpos d)%Z.
Proof.
  unfold floor, of_frac, qfrac. cbn [rat_part irr_part].
  assert (E : this 0 = 0%Q) by reflexivity.
  rewrite E. cbn [Qnum Qden].
  assert (H : (this (Q2Qc (n # d)) == n # d)%Q)
    by (cbn [this Q2Qc]; apply Qred_correct).
  destruct (this (Q2Qc (n # d))) as [p q].
  unfold Qeq in H; cbn [Qnum Qden] in *.
  rewrite !Z.mul_1_r, Z.add_0_r.
  pose proof (Z.div_mod n (Zpos d) ltac:(lia)) as Hn.
  pose proof (Z.mod_pos_bound n (Zpos d) ltac:(lia)) as Hr.
  symmetry.
  apply Z.div_unique with (r := (p - Zpos q * (n / Zpos d))%Z); [| lia].
  left. split; nia.
Qed.

Lemma round_of_Z (n : Z) : round (of_Z n) = of_Z n.
Proof. unfold round. now rewrite floor_of_Z. Qed.

(** Halves go up, as [Math.round(2.5)] is 3 and [Math.round(-2.5)] is -2;
    [3 sqrt 2] lies between 4 and 5. *)
Example floor_samples :
  floor (of_frac 5 2) = 2%Z /\ floor (of_frac (-5) 2) = (-3)%Z
  /\ floor (mul (of_Z 6) half_sqrt2) = 4%Z
  /\ floor (opp (mul (of_Z 6) half_sqrt2)) = (-5)%Z
  /\ floor (add (of_frac 5 2) (of_frac 1 2)) = 3%Z
  /\ floor (add (of_frac (-5) 2) (of_frac 1 2)) = (-2)%Z.
Proof. vm_compute. repeat split. Qed.

(** [3 - 2 sqrt 2] is positive, [7 - 5 sqrt 2] negative. *)
Example sgn_samples :
  sgn (sub (of_Z 3) (mul (of_Z 4) half_sqrt2)) = Gt
  /\ sgn (sub (of_Z 7) (mul (of_Z 10) half_sqrt2)) = Lt.
Proof. vm_compute. split; reflexivity. Qed.

End NumFacts.

Add Ring num_ring : NumFacts.num_ring_theory.

(* ================================================================== *)
(** ** Deciding equality of store values *)
(* ================================================================== *)

Lemma Vector3_eqb_eq (v w : THREE.Vector3) :
  THREE.Vector3_eqb v w = true -> v = w.
Proof.
  destruct v, w; unfold THREE.Vector3_eqb; cbn.
  rewrite !andb_true_iff. intros [[H1 H2] H3].
  f_equal; now apply NumFacts.eqb_eq.
Qed.

Lemma Quaternion_eqb_eq (q r : THREE.Quaternion) :
  THREE.Quaternion_eqb q r = true -> q = r.
Proof.
  destruct q, r; unfold THREE.Quaternion_eqb; cbn.
  rewrite !andb_true_iff. intros [[[H1 H2] H3] H4].
  f_equal; now apply NumFacts.eqb_eq.
Qed.

(* ================================================================== *)
(** ** The lattice and the integer quarter turn *)
(* ================================================================== *)

Lemma in_lattice (a b c : Z) :
  In (a, b, c) lattice <->
  (-1 <= a <= 1 /\ -1 <= b <= 1 /\ -1 <= c <= 1)%Z.
Proof.
  split.
  - intro H. cbn in H.
    repeat (destruct H as [H | H]; [injection H as <- <- <-; lia |]).
    destruct H.
  - intros (Ha & Hb & Hc).
    assert (a = -1 \/ a = 0 \/ a = 1)%Z as [-> | [-> | ->]] by lia;
      assert (b = -1 \/ b = 0 \/ b = 1)%Z as [-> | [-> | ->]] by lia;
      assert (c = -1 \/ c = 0 \/ c = 1)%Z as [-> | [-> | ->]] by lia;
      cbn; tauto.
Qed.

Lemma lattice_NoDup : NoDup lattice.
Proof.
  cbn. repeat (constructor; [cbn; intuition discriminate |]). constructor.
Qed.

Lemma table_directions (m : Move) :
  In m table_moves -> direction m = 1%Z \/ direction m = (-1)%Z.
Proof.
  cbn. intro H.
  repeat (destruct H as [<- | H]; [cbn; auto |]). destruct H.
Qed.

Lemma slice_map_lattice (m : Move) (p : Z * Z * Z) :
  In m table_moves -> In p lattice -> In (slice_map m p) lattice.
Proof.
  intros Hm Hp. destruct p as [[a b] c]. apply in_lattice in Hp.
  unfold slice_map. destruct (along (axis m) (a, b, c) =? slice m)%Z.
  - destruct (table_directions m Hm) as [-> | ->], (axis m); cbn [turn];
      apply in_lattice; lia.
  - now apply in_lattice.
Qed.

(** Turning back undoes the turn: [m'] has the axis and slice of [m] and
    the opposite direction. *)
Lemma slice_map_inverse (m m' : Move) (p : Z * Z * Z) :
  In m table_moves ->
  axis m' = axis m -> slice m' = slice m -> direction m' = (- direction m)%Z ->
  slice_map m' (slice_map m p) = p.
Proof.
  intros Hm Ha Hs Hd. destruct p as [[a b] c]. unfold slice_map.
  rewrite Ha, Hs, Hd.
  destruct (along (axis m) (a, b, c) =? slice m)%Z eqn:E.
  - assert (E' : (along (axis m) (turn (axis m) (direction m) (a, b, c))
                  =? slice m)%Z = true).
    { rewrite <- E. destruct (axis m); reflexivity. }
    rewrite E'.
    destruct (table_directions m Hm) as [-> | ->], (axis m); cbn [turn];
      f_equal; try f_equal; lia.
  - now rewrite E.
Qed.

Lemma table_inverse_spec (m : Move) :
  In m table_moves ->
  exists m', table_inverse m = Some m' /\ In m' table_moves /\
             axis m' = axis m /\ slice m' = slice m /\
             direction m' = (- direction m)%Z.
Proof.
  cbn. intro H.
  repeat (destruct H as [<- | H];
          [eexists; split; [reflexivity | cbn; intuition] |]).
  destruct H.
Qed.

Lemma slice_map_permutation (m : Move) :
  In m table_moves -> Permutation (map (slice_map m) lattice) lattice.
Proof.
  intro Hm.
  destruct (table_inverse_spec m Hm) as (m' & _ & _ & Ha & Hs & Hd).
  apply NoDup_Permutation_bis.
  - apply NoDup_map_NoDup_ForallPairs; [| apply lattice_NoDup].
    intros p q _ _ E.
    rewrite <- (slice_map_inverse m m' p Hm Ha Hs Hd), E.
    now apply slice_map_inverse.
  - now rewrite length_map.
  - intros p Hp. apply in_map_iff in Hp as (p0 & <- & Hp0).
    now apply slice_map_lattice.
Qed.

(** The commit agrees with the integer quarter turn on every lattice
    point, for every move of the table: checked by evaluation. *)
Lemma agrees_everywhere :
  forallb (fun m => forallb (agrees_at m) lattice) table_moves = true.
Proof. vm_compute. reflexivity. Qed.

Lemma position_step_lattice (m : Move) (p : Z * Z * Z) :
  In m table_moves -> In p lattice ->
  position_step m (lattice_vec p) = lattice_vec (slice_map m p).
Proof.
  intros Hm Hp.
  pose proof agrees_everywhere as H.
  rewrite forallb_forall in H. specialize (H m Hm).
  rewrite forallb_forall in H. specialize (H p Hp).
  unfold agrees_at in H. apply andb_prop in H as [H _].
  now apply Vector3_eqb_eq.
Qed.

Lemma isInSlice_lattice (m : Move) (p : Z * Z * Z) :
  In m table_moves -> In p lattice ->
  isInSlice (lattice_vec p) (axis m) (slice m)
  = (along (axis m) p =? slice m)%Z.
Proof.
  intros Hm Hp.
  pose proof agrees_everywhere as H.
  rewrite forallb_forall in H. specialize (H m Hm).
  rewrite forallb_forall in H. specialize (H p Hp).
  unfold agrees_at in H. apply andb_prop in H as [_ H].
  now apply Bool.eqb_prop.
Qed.

(* ================================================================== *)
(** ** The store under commits *)
(* ================================================================== *)

Lemma finishMove_map (m : Move) (cs : list Cubie) :
  finishMove m cs = map (commit1 m) cs.
Proof. reflexivity. Qed.

Lemma commit1_id (m : Move) (c : Cubie) : id (commit1 m c) = id c.
Proof. unfold commit1. now destruct (isInSlice _ _ _). Qed.

Lemma commit1_position (m : Move) (c : Cubie) :
  position (commit1 m c) = position_step m (position c).
Proof. unfold commit1, position_step. now destruct (isInSlice _ _ _). Qed.

Lemma finishMove_ids (m : Move) (cs : list Cubie) :
  map id (finishMove m cs) = map id cs.
Proof.
  rewrite finishMove_map, map_map. apply map_ext. apply commit1_id.
Qed.

Lemma commitActive_ids (ids : list Z) (m : Move) (cs : list Cubie) :
  map id (commitActive ids m cs) = map id cs.
Proof.
  unfold commitActive. rewrite map_map. apply map_ext.
  intro c. now destruct (includes ids (id c)).
Qed.

Lemma finishMove_positions (m : Move) (cs : list Cubie) :
  map position (finishMove m cs) = map (position_step m) (map position cs).
Proof.
  rewrite finishMove_map, !map_map. apply map_ext. apply commit1_position.
Qed.

Lemma completed_snoc (ms : list Move) (m : Move) (cs : list Cubie) :
  completed (ms ++ [m]) cs = finishMove m (completed ms cs).
Proof. unfold completed. now rewrite fold_left_app. Qed.

Lemma completed_ids (ms : list Move) (cs : list Cubie) :
  map id (completed ms cs) = map id cs.
Proof.
  revert cs. induction ms as [| m ms IH]; intro cs; [reflexivity |].
  cbn. now rewrite IH, finishMove_ids.
Qed.

Lemma completedById_ids (ms : list Move) (cs : list Cubie) :
  map id (completedById ms cs) = map id cs.
Proof.
  revert cs. induction ms as [| m ms IH]; intro cs; [reflexivity |].
  cbn. now rewrite IH, commitActive_ids.
Qed.

(** With distinct ids, committing by the snapshot of ids is committing by
    slice. *)
Lemma includes_In (ids : list Z) (i : Z) : includes ids i = true <-> In i ids.
Proof.
  unfold includes. rewrite existsb_exists. split.
  - intros (j & Hj & E). apply Z.eqb_eq in E. now subst.
  - intro H. exists i. split; [assumption | apply Z.eqb_refl].
Qed.

Lemma includes_sliceIds (m : Move) (cs : list Cubie) (c : Cubie) :
  NoDup (map id cs) -> In c cs ->
  includes (sliceIds m cs) (id c) = isInSlice (position c) (axis m) (slice m).
Proof.
  intros Hnd Hc.
  destruct (isInSlice (position c) (axis m) (slice m)) eqn:E.
  - apply includes_In. unfold sliceIds, idsInSlice. apply in_map.
    apply filter_In. now split.
  - apply not_true_is_false. intro H. apply includes_In in H.
    unfold sliceIds, idsInSlice in H.
    apply in_map_iff in H as (d & Hid & Hd).
    apply filter_In in Hd as [Hd Hs].
    assert (d = c).
    { clear Hs E. induction cs as [| e cs IH]; [destruct Hc |].
      cbn in Hnd. apply NoDup_cons_iff in Hnd as [Hne Hnd].
      destruct Hd as [-> | Hd], Hc as [-> | Hc]; auto.
      - exfalso. apply Hne. rewrite Hid. now apply in_map.
      - exfalso. apply Hne. rewrite <- Hid. now apply in_map. }
    subst d. congruence.
Qed.

Lemma commitActive_sliceIds (m : Move) (cs : list Cubie) :
  NoDup (map id cs) -> commitActive (sliceIds m cs) m cs = finishMove m cs.
Proof.
  intro Hnd. unfold commitActive, finishMove. apply map_ext_in.
  intros c Hc. now rewrite includes_sliceIds.
Qed.

Lemma completedById_completed (ms : list Move) (cs : list Cubie) :
  NoDup (map id cs) -> completedById ms cs = completed ms cs.
Proof.
  revert cs. induction ms as [| m ms IH]; intros cs Hnd; [reflexivity |].
  cbn. rewrite commitActive_sliceIds by assumption.
  apply IH. now rewrite finishMove_ids.
Qed.

(** *** The initial store *)

Lemma init_from_positions (n : Z) (ps : list (Z * Z * Z)) :
  map position (init_from n ps) = map lattice_vec ps.
Proof.
  revert n. induction ps as [| p ps IH]; intro n; [reflexivity |].
  cbn [init_from map position]. now rewrite IH.
Qed.

Lemma initial_positions : map position initial_cubies = map lattice_vec lattice.
Proof. apply init_from_positions. Qed.

Lemma initial_ids : map id initial_cubies = map Z.of_nat (seq 0 27).
Proof. reflexivity. Qed.

Lemma initial_ids_NoDup : NoDup (map id initial_cubies).
Proof.
  rewrite initial_ids.
  apply NoDup_map_NoDup_ForallPairs; [| apply seq_NoDup].
  intros a b _ _. apply Nat2Z.inj.
Qed.

Lemma of_Z_inj (a b : Z) : Num.of_Z a = Num.of_Z b -> a = b.
Proof.
  intro H. rewrite <- (NumFacts.floor_of_Z a), <- (NumFacts.floor_of_Z b).
  now rewrite H.
Qed.

Lemma lattice_vec_inj (p q : Z * Z * Z) : lattice_vec p = lattice_vec q -> p = q.
Proof.
  destruct p as [[a b] c], q as [[a' b'] c']. unfold lattice_vec. intro H.
  pose proof (f_equal THREE.x H) as Ha.
  pose proof (f_equal THREE.y H) as Hb.
  pose proof (f_equal THREE.z H) as Hc.
  cbn [THREE.x THREE.y THREE.z] in Ha, Hb, Hc.
  apply of_Z_inj in Ha, Hb, Hc. now subst.
Qed.

Lemma lattice_points_NoDup : NoDup (map lattice_vec lattice).
Proof.
  apply NoDup_map_NoDup_ForallPairs; [| apply lattice_NoDup].
  intros p q _ _. apply lattice_vec_inj.
Qed.

(** *** The bijection is kept by every commit *)

Lemma finishMove_bijection (m : Move) (cs : list Cubie) :
  In m table_moves ->
  Permutation (map position cs) (map lattice_vec lattice) ->
  Permutation (map position (finishMove m cs)) (map lattice_vec lattice).
Proof.
  intros Hm Hperm. rewrite finishMove_positions.
  transitivity (map (position_step m) (map lattice_vec lattice)).
  - now apply Permutation_map.
  - rewrite map_map.
    rewrite (map_ext_in _ (fun p => lattice_vec (slice_map m p)))
      by (intros p Hp; now apply position_step_lattice).
    rewrite <- map_map. apply Permutation_map.
    now apply slice_map_permutation.
Qed.

Lemma completed_bijection (ms : list Move) (cs : list Cubie) :
  Forall (fun m => In m table_moves) ms ->
  Permutation (map position cs) (map lattice_vec lattice) ->
  Permutation (map position (completed ms cs)) (map lattice_vec lattice).
Proof.
  intro Hms. revert cs.
  induction Hms as [| m ms Hm _ IH]; intros cs Hperm; [assumption |].
  cbn. apply IH. now apply finishMove_bijection.
Qed.

Lemma reachable_bijection (ms : list Move) :
  Forall (fun m => In m table_moves) ms ->
  Permutation (map position (completed ms initial_cubies))
              (map lattice_vec lattice).
Proof.
  intro Hms. apply completed_bijection; [assumption |].
  rewrite initial_positions. apply Permutation_refl.
Qed.

Lemma bijection_on_lattice (cs : list Cubie) :
  Permutation (map position cs) (map lattice_vec lattice) ->
  Forall on_lattice cs.
Proof.
  intro Hperm. apply Forall_forall. intros c Hc.
  assert (H : In (position c) (map lattice_vec lattice)).
  { apply (Permutation_in _ Hperm). now apply in_map. }
  apply in_map_iff in H as (p & Hp & Hin).
  exists p. now split.
Qed.

(** C2. After any run of completed moves of the table from the initial
    store, the positions of the 27 cubies are the 27 lattice points of
    {-1,0,1}^3, each taken exactly once. *)
Theorem positions_are_the_lattice (ms : list Move) :
  Forall (fun m => In m table_moves) ms ->
  let cs := completed ms initial_cubies in
  List.length cs = 27%nat
  /\ Permutation (map position cs) (map lattice_vec lattice)
  /\ NoDup (map position cs)
  /\ (forall v, In v (map position cs) <->
                exists a b c, v = lattice_vec (a, b, c) /\
                  (-1 <= a <= 1 /\ -1 <= b <= 1 /\ -1 <= c <= 1)%Z).
Proof.
  intros Hms cs.
  assert (Hperm : Permutation (map position cs) (map lattice_vec lattice))
    by now apply reachable_bijection.
  repeat split.
  - rewrite <- (length_map id). unfold cs. now rewrite completed_ids.
  - exact Hperm.
  - apply (Permutation_NoDup (Permutation_sym Hperm)).
    apply lattice_points_NoDup.
  - intro Hv. apply (Permutation_in _ Hperm) in Hv.
    apply in_map_iff in Hv as ([[a b] c] & <- & Hin).
    exists a, b, c. split; [reflexivity | now apply in_lattice].
  - intros (a & b & c & -> & Hin).
    apply (Permutation_in _ (Permutation_sym Hperm)).
    apply in_map. now apply in_lattice.
Qed.

Lemma positions_are_the_lattice_witness :
  NoDup (map position (completed [U1; R2; U1] initial_cubies)).
Proof.
  apply (positions_are_the_lattice [U1; R2; U1]).
  repeat constructor; cbn; tauto.
Defined.

(* ================================================================== *)
(** ** Slices *)
(* ================================================================== *)

Lemma filter_map_length {A B : Type} (f : A -> B) (P : B -> bool) (l : list A) :
  List.length (filter (fun a => P (f a)) l) = List.length (filter P (map f l)).
Proof.
  induction l as [| a l IH]; [reflexivity |].
  cbn. destruct (P (f a)); cbn; now rewrite IH.
Qed.

Lemma filter_length_permutation {A : Type} (P : A -> bool) (l l' : list A) :
  Permutation l l' -> List.length (filter P l) = List.length (filter P l').
Proof.
  induction 1 as [| a l l' _ IH | a b l | l l' l'' _ IH1 _ IH2]; cbn.
  - reflexivity.
  - destruct (P a); cbn; now rewrite IH.
  - destruct (P a), (P b); reflexivity.
  - now rewrite IH1.
Qed.

Lemma NoDup_map_filter {A B : Type} (f : A -> B) (P : A -> bool) (l : list A) :
  NoDup (map f l) -> NoDup (map f (filter P l)).
Proof.
  induction l as [| a l IH]; cbn; [trivial |].
  intro H. apply NoDup_cons_iff in H as [Hn Hd].
  destruct (P a); cbn; [| now apply IH].
  constructor; [| now apply IH].
  intro Hin. apply Hn.
  apply in_map_iff in Hin as (b & E & Hb). apply filter_In in Hb as [Hb _].
  rewrite <- E. now apply in_map.
Qed.

(** Every slice of the lattice has nine points. *)
Lemma lattice_slices :
  forallb (fun ax =>
    forallb (fun s =>
      (List.length (filter (fun v => isInSlice v ax s) (map lattice_vec lattice))
       =? 9)%nat) coords) [AxisX; AxisY; AxisZ] = true.
Proof. vm_compute. reflexivity. Qed.

(** C6. After any run of completed moves of the table, the cubies whose
    coordinate along an axis equals a slice value in {-1,0,1} (within the
    tolerance of [isInSlice]) are nine, with nine different ids. *)
Theorem slice_has_nine_ids (ms : list Move) (ax : Axis) (s : Z) :
  Forall (fun m => In m table_moves) ms ->
  (-1 <= s <= 1)%Z ->
  let ids := idsInSlice ax s (completed ms initial_cubies) in
  List.length ids = 9%nat /\ NoDup ids.
Proof.
  intros Hms Hs ids. split.
  - unfold ids, idsInSlice. rewrite length_map.
    rewrite (filter_map_length position (fun v => isInSlice v ax s)).
    rewrite (filter_length_permutation _ _ _ (reachable_bijection ms Hms)).
    pose proof lattice_slices as H. rewrite forallb_forall in H.
    assert (Hax : In ax [AxisX; AxisY; AxisZ]) by (destruct ax; cbn; tauto).
    specialize (H ax Hax). rewrite forallb_forall in H.
    assert (Hin : In s coords) by (unfold coords; cbn; lia).
    specialize (H s Hin). now apply Nat.eqb_eq.
  - unfold ids, idsInSlice. apply NoDup_map_filter.
    rewrite completed_ids. apply initial_ids_NoDup.
Qed.

Lemma slice_has_nine_ids_witness :
  List.length (idsInSlice AxisX 0 (completed [F1; U2] initial_cubies)) = 9%nat.
Proof.
  apply (slice_has_nine_ids [F1; U2] AxisX 0).
  - repeat constructor; cbn; tauto.
  - lia.
Defined.

(* ================================================================== *)
(** ** The frame of a commit *)
(* ================================================================== *)

(** C10. A commit leaves every cubie outside the affected set as it was,
    id, position and rotation: outside the slice for the commit by slice,
    outside the snapshot of ids for the commit by id.  The cubies inside
    are the ones rewritten. *)
Theorem commit_leaves_the_rest (m : Move) (ids : list Z) (cs : list Cubie)
        (i : nat) (c : Cubie) :
  nth_error cs i = Some c ->
  nth_error (finishMove m cs) i
  = Some (if isInSlice (position c) (axis m) (slice m)
          then turned (quarterTurn m) c else c)
  /\ nth_error (commitActive ids m cs) i
     = Some (if includes ids (id c) then turned (quarterTurn m) c else c)
  /\ (isInSlice (position c) (axis m) (slice m) = false ->
      nth_error (finishMove m cs) i = Some c)
  /\ (includes ids (id c) = false ->
      nth_error (commitActive ids m cs) i = Some c).
Proof.
  intro H. unfold finishMove, commitActive.
  rewrite !nth_error_map, H. cbn.
  split; [reflexivity |]. split; [reflexivity |].
  split; intros ->; reflexivity.
Qed.

Lemma commit_leaves_the_rest_witness :
  nth_error (finishMove U1 initial_cubies) 0 = nth_error initial_cubies 0.
Proof.
  apply (commit_leaves_the_rest U1 [] initial_cubies 0
           (mk_Cubie 0 (lattice_vec (-1, -1, -1)%Z) THREE.identity "-1,-1,-1")).
  - reflexivity.
  - vm_compute. reflexivity.
Defined.

(* ================================================================== *)
(** ** Colours *)
(* ================================================================== *)

Lemma myMaterials_by_id (cs cs' : list Cubie) :
  map id cs = map id cs' -> map myMaterials cs = map myMaterials cs'.
Proof.
  revert cs'. induction cs as [| c cs IH]; intros [| c' cs'] H;
    try discriminate; [reflexivity |].
  cbn in H. injection H as Hc Hcs. cbn [map].
  f_equal; [| now apply IH].
  unfold myMaterials. now rewrite Hc.
Qed.

(** C5. The materials of a cubie are a function of its id alone; the id
    encodes the lattice point where the cubie was created, and no commit
    changes it.  So after any run of moves the materials of every cubie
    are those of its original coordinates. *)
Theorem colours_follow_the_cubie (ms : list Move) :
  map position initial_cubies = map lattice_vec lattice
  /\ map (fun c => (ix (id c), iy (id c), iz (id c))) initial_cubies = lattice
  /\ map id (completed ms initial_cubies) = map id initial_cubies
  /\ map id (completedById ms initial_cubies) = map id initial_cubies
  /\ map myMaterials (completed ms initial_cubies)
     = map lattice_materials lattice
  /\ map myMaterials (completedById ms initial_cubies)
     = map lattice_materials lattice.
Proof.
  assert (H0 : map myMaterials initial_cubies = map lattice_materials lattice)
    by reflexivity.
  split; [apply initial_positions |].
  split; [reflexivity |].
  split; [apply completed_ids |].
  split; [apply completedById_ids |].
  split; rewrite <- H0; apply myMaterials_by_id.
  - apply completed_ids.
  - apply completedById_ids.
Qed.

(* ================================================================== *)
(** ** Quaternions of quarter turns *)
(* ================================================================== *)

Lemma multiplyQuaternions_assoc (a b c : THREE.Quaternion) :
  THREE.multiplyQuaternions a (THREE.multiplyQuaternions b c)
  = THREE.multiplyQuaternions (THREE.multiplyQuaternions a b) c.
Proof.
  destruct a, b, c. unfold THREE.multiplyQuaternions.
  cbn [THREE.qx THREE.qy THREE.qz THREE.qw]. f_equal; ring.
Qed.

Lemma multiplyQuaternions_identity (r : THREE.Quaternion) :
  THREE.multiplyQuaternions THREE.identity r = r.
Proof.
  destruct r. unfold THREE.multiplyQuaternions, THREE.identity.
  cbn [THREE.qx THREE.qy THREE.qz THREE.qw]. f_equal; ring.
Qed.

Lemma multiplyQuaternions_negate_identity (r : THREE.Quaternion) :
  THREE.multiplyQuaternions (THREE.negate THREE.identity) r = THREE.negate r.
Proof.
  destruct r. unfold THREE.multiplyQuaternions, THREE.negate, THREE.identity.
  cbn [THREE.qx THREE.qy THREE.qz THREE.qw]. f_equal; ring.
Qed.

(** The two formulas of [applyQuaternion] differ by the factor
    [|q|^2 - 1], so they agree on unit quaternions, and the quaternions of
    the table moves are unit. *)
Lemma applyQuaternion_legacy_unit (v : THREE.Vector3) (q : THREE.Quaternion) :
  THREE.qx q * THREE.qx q + THREE.qy q * THREE.qy q
  + THREE.qz q * THREE.qz q + THREE.qw q * THREE.qw q = 1 ->
  THREE.applyQuaternion_legacy v q = THREE.applyQuaternion v q.
Proof.
  destruct v as [vx vy vz], q as [a b c w].
  cbn [THREE.qx THREE.qy THREE.qz THREE.qw]. intro H.
  unfold THREE.applyQuaternion_legacy, THREE.applyQuaternion.
  cbn [THREE.qx THREE.qy THREE.qz THREE.qw THREE.x THREE.y THREE.z].
  rewrite !NumFacts.two_plus.
  f_equal.
  - transitivity (vx + w * ((1 + 1) * (b * vz - c * vy)) + b * ((1 + 1) * (a * vy - b * vx))
                  - c * ((1 + 1) * (c * vx - a * vz))
                  + (a * a + b * b + c * c + w * w - 1) * vx); [ring |].
    rewrite H. ring.
  - transitivity (vy + w * ((1 + 1) * (c * vx - a * vz)) + c * ((1 + 1) * (b * vz - c * vy))
                  - a * ((1 + 1) * (a * vy - b * vx))
                  + (a * a + b * b + c * c + w * w - 1) * vy); [ring |].
    rewrite H. ring.
  - transitivity (vz + w * ((1 + 1) * (a * vy - b * vx)) + a * ((1 + 1) * (c * vx - a * vz))
                  - b * ((1 + 1) * (b * vz - c * vy))
                  + (a * a + b * b + c * c + w * w - 1) * vz); [ring |].
    rewrite H. ring.
Qed.

Lemma quarterTurn_unit (m : Move) :
  In m table_moves ->
  let q := quarterTurn m in
  THREE.qx q * THREE.qx q + THREE.qy q * THREE.qy q
  + THREE.qz q * THREE.qz q + THREE.qw q * THREE.qw q = 1.
Proof.
  intros Hm q. unfold q, quarterTurn.
  destruct (table_directions m Hm) as [-> | ->], (axis m);
    apply NumFacts.eqb_eq; vm_compute; reflexivity.
Qed.

Corollary quarterTurn_either_formula (m : Move) (v : THREE.Vector3) :
  In m table_moves ->
  THREE.applyQuaternion_legacy v (quarterTurn m)
  = THREE.applyQuaternion v (quarterTurn m).
Proof.
  intro Hm. apply applyQuaternion_legacy_unit. now apply quarterTurn_unit.
Qed.



(** The quaternion of a table move times that of the opposite turn. *)
Lemma quarterTurn_inverse (m m' : Move) :
  In m table_moves ->
  axis m' = axis m -> direction m' = (- direction m)%Z ->
  THREE.multiplyQuaternions (quarterTurn m') (quarterTurn m) = THREE.identity.
Proof.
  intros Hm Ha Hd. unfold quarterTurn. rewrite Ha, Hd.
  destruct (table_directions m Hm) as [-> | ->], (axis m);
    apply Quaternion_eqb_eq; vm_compute; reflexivity.
Qed.

(** Four quarter turns make a full turn, whose quaternion is [-1]. *)
Lemma quarterTurn_fourth (m : Move) :
  In m table_moves ->
  let q := quarterTurn m in
  THREE.multiplyQuaternions
    (THREE.multiplyQuaternions q q) (THREE.multiplyQuaternions q q)
  = THREE.negate THREE.identity.
Proof.
  intros Hm q. unfold q, quarterTurn.
  destruct (table_directions m Hm) as [-> | ->], (axis m);
    apply Quaternion_eqb_eq; vm_compute; reflexivity.
Qed.

(* ================================================================== *)
(** ** One cubie under a commit *)
(* ================================================================== *)

(** The commit on a cubie that sits on a lattice point, in the integer
    picture. *)
Lemma commit1_lattice (m : Move) (i : Z) (p : Z * Z * Z)
      (r : THREE.Quaternion) (n : string) :
  In m table_moves -> In p lattice ->
  commit1 m (mk_Cubie i (lattice_vec p) r n)
  = if (along (axis m) p =? slice m)%Z
    then mk_Cubie i (lattice_vec (turn (axis m) (direction m) p))
                  (THREE.multiplyQuaternions (quarterTurn m) r) n
    else mk_Cubie i (lattice_vec p) r n.
Proof.
  intros Hm Hp. unfold commit1. cbn [position].
  rewrite (isInSlice_lattice m p Hm Hp).
  pose proof (position_step_lattice m p Hm Hp) as H.
  unfold position_step, slice_map in H.
  rewrite (isInSlice_lattice m p Hm Hp) in H.
  destruct (along (axis m) p =? slice m)%Z; [| reflexivity].
  unfold turned, THREE.premultiply. cbn [id position rotation cubie_name].
  now rewrite H.
Qed.

Lemma turn_lattice (m : Move) (p : Z * Z * Z) :
  In m table_moves -> In p lattice ->
  In (turn (axis m) (direction m) p) lattice.
Proof.
  intros Hm Hp. destruct p as [[a b] c]. apply in_lattice in Hp.
  destruct (table_directions m Hm) as [-> | ->], (axis m); cbn [turn];
    apply in_lattice; lia.
Qed.

Lemma along_turn (ax : Axis) (d : Z) (p : Z * Z * Z) :
  along ax (turn ax d p) = along ax p.
Proof. destruct p as [[a b] c], ax; reflexivity. Qed.

Lemma turn_back (m : Move) (p : Z * Z * Z) :
  In m table_moves ->
  turn (axis m) (- direction m) (turn (axis m) (direction m) p) = p.
Proof.
  intro Hm. destruct p as [[a b] c].
  destruct (table_directions m Hm) as [-> | ->], (axis m); cbn [turn];
    f_equal; try f_equal; lia.
Qed.

Lemma turn_four (m : Move) (p : Z * Z * Z) :
  In m table_moves ->
  let t := turn (axis m) (direction m) in
  t (t (t (t p))) = p.
Proof.
  intros Hm t. unfold t. destruct p as [[a b] c].
  destruct (table_directions m Hm) as [-> | ->], (axis m); cbn [turn];
    f_equal; try f_equal; lia.
Qed.

(** A move, then the table move that turns the same slice back. *)
Lemma there_and_back (m m' : Move) (c : Cubie) :
  In m table_moves -> In m' table_moves ->
  axis m' = axis m -> slice m' = slice m -> direction m' = (- direction m)%Z ->
  on_lattice c ->
  commit1 m' (commit1 m c) = c.
Proof.
  intros Hm Hm' Ha Hs Hd (p & Hp & Hpos).
  destruct c as [i v r n]. cbn [position] in Hpos. subst v.
  rewrite (commit1_lattice m i p r n Hm Hp).
  destruct (along (axis m) p =? slice m)%Z eqn:E.
  - rewrite (commit1_lattice m' _ _ _ _ Hm' (turn_lattice m p Hm Hp)).
    rewrite Ha, Hs, Hd, along_turn, E, (turn_back m p Hm).
    rewrite multiplyQuaternions_assoc, (quarterTurn_inverse m m' Hm Ha Hd).
    now rewrite multiplyQuaternions_identity.
  - rewrite (commit1_lattice m' _ _ _ _ Hm' Hp), Ha, Hs, E. reflexivity.
Qed.

(** The same move four times. *)
Lemma four_times (m : Move) (c : Cubie) :
  In m table_moves -> on_lattice c ->
  commit1 m (commit1 m (commit1 m (commit1 m c)))
  = if isInSlice (position c) (axis m) (slice m) then negated c else c.
Proof.
  intros Hm (p & Hp & Hpos).
  destruct c as [i v r n]. cbn [position] in Hpos. subst v.
  cbn [position]. rewrite (isInSlice_lattice m p Hm Hp).
  pose proof (turn_lattice m p Hm Hp) as Hp1.
  pose proof (turn_lattice m _ Hm Hp1) as Hp2.
  pose proof (turn_lattice m _ Hm Hp2) as Hp3.
  rewrite (commit1_lattice m i p r n Hm Hp).
  destruct (along (axis m) p =? slice m)%Z eqn:E.
  - rewrite (commit1_lattice m _ _ _ _ Hm Hp1), along_turn, E.
    rewrite (commit1_lattice m _ _ _ _ Hm Hp2), !along_turn, E.
    rewrite (commit1_lattice m _ _ _ _ Hm Hp3), !along_turn, E.
    rewrite (turn_four m p Hm).
    unfold negated. cbn [id position rotation cubie_name]. f_equal.
    rewrite <- multiplyQuaternions_negate_identity.
    rewrite <- (quarterTurn_fourth m Hm).
    now rewrite !multiplyQuaternions_assoc.
  - repeat (rewrite (commit1_lattice m i p r n Hm Hp), E). reflexivity.
Qed.

Lemma negated_negated (c : Cubie) : negated (negated c) = c.
Proof.
  destruct c as [i v [a b c w] n]. unfold negated, THREE.negate.
  cbn [id position rotation cubie_name THREE.qx THREE.qy THREE.qz THREE.qw].
  f_equal. f_equal; ring.
Qed.

(** Eight times give back the very cubie, quaternion included. *)
Lemma eight_times (m : Move) (c : Cubie) :
  In m table_moves -> on_lattice c ->
  let f := commit1 m in
  f (f (f (f (f (f (f (f c))))))) = c.
Proof.
  intros Hm Hc f. unfold f.
  rewrite (four_times m c Hm Hc).
  destruct (isInSlice (position c) (axis m) (slice m)) eqn:E.
  - assert (Hn : on_lattice (negated c)) by exact Hc.
    rewrite (four_times m (negated c) Hm Hn).
    cbn [negated position]. rewrite E. apply negated_negated.
  - rewrite (four_times m c Hm Hc), E. reflexivity.
Qed.

(* ================================================================== *)
(** ** Inverse and order-four laws *)
(* ================================================================== *)

Lemma finishMove_there_and_back (m m' : Move) (cs : list Cubie) :
  In m table_moves -> In m' table_moves ->
  axis m' = axis m -> slice m' = slice m -> direction m' = (- direction m)%Z ->
  Forall on_lattice cs ->
  finishMove m' (finishMove m cs) = cs.
Proof.
  intros Hm Hm' Ha Hs Hd Hcs.
  rewrite !finishMove_map, map_map.
  rewrite <- (map_id cs) at 2. apply map_ext_in.
  intros c Hc. apply there_and_back; try assumption.
  rewrite Forall_forall in Hcs. now apply Hcs.
Qed.


Lemma initial_on_lattice : Forall on_lattice initial_cubies.
Proof.
  apply bijection_on_lattice. rewrite initial_positions.
  apply Permutation_refl.
Qed.




(** Eight commits of the same move do give back the store exactly. *)
Lemma eight_turns_restore_the_store (m : Move) (cs : list Cubie) :
  In m table_moves ->
  Forall on_lattice cs ->
  completed [m; m; m; m; m; m; m; m] cs = cs.
Proof.
  intros Hm Hcs. cbn [completed fold_left].
  rewrite !finishMove_map, !map_map.
  rewrite <- (map_id cs) at 2. apply map_ext_in.
  intros c Hc. apply (eight_times m c Hm).
  rewrite Forall_forall in Hcs. now apply Hcs.
Qed.


(* ================================================================== *)
(** ** The animation loops *)
(* ================================================================== *)

Lemma Pivot_start_cubies (st : Pivot.State) :
  Pivot.cubies (Pivot.start st) = Pivot.cubies st.
Proof.
  unfold Pivot.start.
  destruct (Pivot.isAnimating st), (Pivot.moveQueue st); reflexivity.
Qed.

Lemma Mesh_start_cubies (st : Mesh.State) :
  Mesh.cubies (Mesh.start st) = Mesh.cubies st.
Proof.
  unfold Mesh.start.
  destruct (Mesh.isAnimating st), (Mesh.moveQueue st); reflexivity.
Qed.

(** What a frame of the pivot component does, by cases. *)
Lemma Pivot_useFrame_cases (delta : Num.num) (st : Pivot.State) :
  let st1 := Pivot.start st in
  (Pivot.useFrame delta st = st1
   /\ (Pivot.isAnimating st1 = false \/ Pivot.currentMove st1 = None))
  \/ (exists move,
        Pivot.isAnimating st1 = true /\ Pivot.currentMove st1 = Some move
        /\ (1 <=? Pivot.advanced delta st) = false
        /\ Pivot.useFrame delta st
           = Pivot.mk_State (Pivot.cubies st1) (Pivot.moveQueue st1) true
               (Some move) (Pivot.advanced delta st)
               (Num.of_Z (direction move) * Pivot.advanced delta st))
  \/ (exists move,
        Pivot.isAnimating st1 = true /\ Pivot.currentMove st1 = Some move
        /\ (1 <=? Pivot.advanced delta st) = true
        /\ Pivot.useFrame delta st = Pivot.finish move st1).
Proof.
  intro st1. unfold Pivot.useFrame, Pivot.advanced. fold st1.
  destruct (Pivot.isAnimating st1) eqn:Ea; [| left; auto].
  destruct (Pivot.currentMove st1) as [move |] eqn:Ec; [| left; auto].
  right.
  destruct (1 <=? Pivot.progress st1 + delta * Pivot.speed st1) eqn:Ep.
  - right. exists move. auto.
  - left. exists move. auto.
Qed.

Lemma Mesh_useFrame_cases (target delta : Num.num) (st : Mesh.State) :
  let st1 := Mesh.start st in
  (Mesh.useFrame target delta st = st1
   /\ (Mesh.isAnimating st1 = false \/ Mesh.currentMove st1 = None))
  \/ (exists move,
        Mesh.isAnimating st1 = true /\ Mesh.currentMove st1 = Some move
        /\ (target <=? Mesh.advanced target delta st) = false
        /\ Mesh.useFrame target delta st
           = Mesh.mk_State (Mesh.cubies st1) (Mesh.moveQueue st1) true
               (Some move) (Mesh.advanced target delta st)
               (Mesh.activeCubieIds st1))
  \/ (exists move,
        Mesh.isAnimating st1 = true /\ Mesh.currentMove st1 = Some move
        /\ (target <=? Mesh.advanced target delta st) = true
        /\ Mesh.useFrame target delta st
           = Mesh.mk_State
               (commitActive (Mesh.activeCubieIds st1) move (Mesh.cubies st1))
               (handleMoveComplete (Mesh.moveQueue st1)) false None
               (Mesh.advanced target delta st) (Mesh.activeCubieIds st1)).
Proof.
  intro st1. unfold Mesh.useFrame. fold st1.
  destruct (Mesh.isAnimating st1) eqn:Ea; [| left; auto].
  destruct (Mesh.currentMove st1) as [move |] eqn:Ec; [| left; auto].
  right.
  destruct (target <=? Mesh.advanced target delta st) eqn:Ep.
  - right. exists move. auto.
  - left. exists move. auto.
Qed.

(** A frame changes the store only when the progress test holds. *)
Lemma frame_store_cases
        (target delta : Num.num) (st : Pivot.State) (ms : Mesh.State) :
  ((1 <=? Pivot.advanced delta st) = false ->
   Pivot.cubies (Pivot.useFrame delta st) = Pivot.cubies st)
  /\ (Pivot.cubies (Pivot.useFrame delta st) <> Pivot.cubies st ->
      exists move,
        Pivot.currentMove (Pivot.start st) = Some move
        /\ (1 <=? Pivot.advanced delta st) = true
        /\ Pivot.cubies (Pivot.useFrame delta st)
           = finishMove move (Pivot.cubies st))
  /\ ((target <=? Mesh.advanced target delta ms) = false ->
      Mesh.cubies (Mesh.useFrame target delta ms) = Mesh.cubies ms)
  /\ (Mesh.cubies (Mesh.useFrame target delta ms) <> Mesh.cubies ms ->
      exists move,
        Mesh.currentMove (Mesh.start ms) = Some move
        /\ (target <=? Mesh.advanced target delta ms) = true
        /\ Mesh.cubies (Mesh.useFrame target delta ms)
           = commitActive (Mesh.activeCubieIds (Mesh.start ms)) move
                          (Mesh.cubies ms)).
Proof.
  pose proof (Pivot_start_cubies st) as Hs.
  pose proof (Mesh_start_cubies ms) as Hm.
  destruct (Pivot_useFrame_cases delta st)
    as [[E _] | [(mv & _ & Hc & Hp & E) | (mv & _ & Hc & Hp & E)]];
    destruct (Mesh_useFrame_cases target delta ms)
    as [[E' _] | [(mv' & _ & Hc' & Hp' & E') | (mv' & _ & Hc' & Hp' & E')]];
    rewrite E, E'; cbn [Pivot.cubies Pivot.finish Mesh.cubies];
    rewrite ?Hs, ?Hm;
    (split; [ intros; congruence || reflexivity
            | split; [ intro Hne; try (now elim Hne);
                       exists mv; auto
                     | split; [ intros; congruence || reflexivity
                              | intro Hne; try (now elim Hne);
                                exists mv'; auto ] ] ]).
Qed.


(** C4. In both components a frame whose progress stays below the quarter
    turn ([progress < 1], or [moveProgress < target]) leaves the cubie
    store as it was; and a frame that changes the store is a commit: the
    test [progress >= 1], or [moveProgress >= target], holds, a move is in
    flight, and the store is that move's commit of the old one. *)
Theorem store_changes_only_at_commit
        (target delta : Num.num) (st : Pivot.State) (ms : Mesh.State) :
  ((Pivot.advanced delta st <? 1) = true ->
   Pivot.cubies (Pivot.useFrame delta st) = Pivot.cubies st)
  /\ (Pivot.cubies (Pivot.useFrame delta st) <> Pivot.cubies st ->
      exists move,
        Pivot.currentMove (Pivot.start st) = Some move
        /\ (1 <=? Pivot.advanced delta st) = true
        /\ Pivot.cubies (Pivot.useFrame delta st)
           = finishMove move (Pivot.cubies st))
  /\ ((Mesh.advanced target delta ms <? target) = true ->
      Mesh.cubies (Mesh.useFrame target delta ms) = Mesh.cubies ms)
  /\ (Mesh.cubies (Mesh.useFrame target delta ms) <> Mesh.cubies ms ->
      exists move,
        Mesh.currentMove (Mesh.start ms) = Some move
        /\ (target <=? Mesh.advanced target delta ms) = true
        /\ Mesh.cubies (Mesh.useFrame target delta ms)
           = commitActive (Mesh.activeCubieIds (Mesh.start ms)) move
                          (Mesh.cubies ms)).
Proof.
  destruct (frame_store_cases target delta st ms) as (H1 & H2 & H3 & H4).
  split; [| split; [exact H2 | split; [| exact H4]]].
  - intro Hlt. apply H1. rewrite NumFacts.leb_ltb, Hlt. reflexivity.
  - intro Hlt. apply H3. rewrite NumFacts.leb_ltb, Hlt. reflexivity.
Qed.

Lemma store_changes_only_at_commit_witness :
  Pivot.cubies
    (Pivot.useFrame (Num.of_frac 1 60)
       (Pivot.enqueue [U1] Pivot.initial))
  = initial_cubies.
Proof.
  apply (store_changes_only_at_commit 1 (Num.of_frac 1 60)
           (Pivot.enqueue [U1] Pivot.initial) Mesh.initial).
  vm_compute. reflexivity.
Defined.

(** *** Every store the components reach is a run of completed moves *)

Lemma from_table_tl (ms : list Move) :
  from_table ms -> from_table (handleMoveComplete ms).
Proof. intro H. destruct H; [constructor | assumption]. Qed.

Lemma Pivot_reachable_store (st : Pivot.State) :
  Pivot.reachable st ->
  (exists ms, from_table ms /\ Pivot.cubies st = completed ms initial_cubies)
  /\ from_table (Pivot.moveQueue st)
  /\ (forall m, Pivot.currentMove st = Some m -> In m table_moves).
Proof.
  induction 1 as [| delta st _ (Hcs & Hq & Hcur) | moves st _ (Hcs & Hq & Hcur) Hms].
  - split; [exists []; split; [constructor | reflexivity] |].
    split; [constructor | discriminate].
  - assert (H1 : from_table (Pivot.moveQueue (Pivot.start st))
                 /\ forall m, Pivot.currentMove (Pivot.start st) = Some m ->
                              In m table_moves).
    { unfold Pivot.start.
      destruct (Pivot.isAnimating st); [now split |].
      destruct (Pivot.moveQueue st) as [| m0 q] eqn:Eq.
      - rewrite <- Eq in Hq. now split.
      - cbn. split; [assumption |]. intros m [= <-].
        now apply Forall_inv in Hq. }
    destruct H1 as [Hq1 Hcur1].
    pose proof (Pivot_start_cubies st) as Hs.
    destruct (Pivot_useFrame_cases delta st)
      as [[E _] | [(mv & _ & Hc & _ & E) | (mv & _ & Hc & _ & E)]];
      rewrite E.
    + rewrite Hs. split; [assumption | split; assumption].
    + cbn [Pivot.cubies Pivot.moveQueue Pivot.currentMove Pivot.isAnimating Pivot.finish Pivot.enqueue].
      rewrite Hs. split; [assumption |]. split; [assumption |].
      intros m [= <-]. auto.
    + cbn [Pivot.cubies Pivot.moveQueue Pivot.currentMove Pivot.isAnimating Pivot.finish Pivot.enqueue].
      rewrite Hs. destruct Hcs as (ms & Hms & ->).
      split; [| split; [now apply from_table_tl | discriminate]].
      exists (ms ++ [mv]). split.
      * apply Forall_app. split; [assumption |]. constructor; auto.
      * now rewrite completed_snoc.
  - cbn [Pivot.cubies Pivot.moveQueue Pivot.currentMove Pivot.isAnimating Pivot.finish Pivot.enqueue].
    split; [assumption |]. split; [| assumption].
    apply Forall_app. now split.
Qed.

Lemma Mesh_reachable_store (target : Num.num) (st : Mesh.State) :
  Mesh.reachable target st ->
  (exists ms, from_table ms /\ Mesh.cubies st = completed ms initial_cubies)
  /\ from_table (Mesh.moveQueue st)
  /\ (forall m, Mesh.currentMove st = Some m ->
                In m table_moves
                /\ (Mesh.isAnimating st = true ->
                    Mesh.activeCubieIds st = sliceIds m (Mesh.cubies st))).
Proof.
  induction 1 as [| delta st _ (Hcs & Hq & Hcur) | moves st _ (Hcs & Hq & Hcur) Hms].
  - split; [exists []; split; [constructor | reflexivity] |].
    split; [constructor | discriminate].
  - assert (H1 : from_table (Mesh.moveQueue (Mesh.start st))
                 /\ forall m, Mesh.currentMove (Mesh.start st) = Some m ->
                      In m table_moves
                      /\ (Mesh.isAnimating (Mesh.start st) = true ->
                          Mesh.activeCubieIds (Mesh.start st)
                          = sliceIds m (Mesh.cubies (Mesh.start st)))).
    { unfold Mesh.start.
      destruct (Mesh.isAnimating st) eqn:Ea.
      { split; [assumption |]. intros m Hm.
        destruct (Hcur m Hm) as [Hin Hids].
        split; [assumption | intros _; now apply Hids]. }
      destruct (Mesh.moveQueue st) as [| m0 q] eqn:Eq.
      - rewrite <- Eq in Hq. split; [assumption |]. intros m Hm.
        destruct (Hcur m Hm) as [Hin Hids]. split; [assumption |].
        rewrite Ea. discriminate.
      - cbn. split; [assumption |]. intros m [= <-].
        split; [now apply Forall_inv in Hq | reflexivity]. }
    destruct H1 as [Hq1 Hcur1].
    pose proof (Mesh_start_cubies st) as Hs.
    rewrite Hs in Hcur1.
    destruct (Mesh_useFrame_cases target delta st)
      as [[E _] | [(mv & Ha & Hc & _ & E) | (mv & Ha & Hc & _ & E)]];
      rewrite E.
    + rewrite Hs. split; [assumption | split; assumption].
    + cbn [Mesh.cubies Mesh.moveQueue Mesh.currentMove Mesh.isAnimating Mesh.activeCubieIds Mesh.enqueue].
      rewrite Hs. split; [assumption |]. split; [assumption |].
      intros m [= <-]. destruct (Hcur1 mv Hc) as [Hin Hids].
      split; [assumption |]. intros _. now apply Hids.
    + cbn [Mesh.cubies Mesh.moveQueue Mesh.currentMove Mesh.isAnimating Mesh.activeCubieIds Mesh.enqueue].
      destruct (Hcur1 mv Hc) as [Hin Hids].
      rewrite (Hids Ha), Hs. destruct Hcs as (ms & Hms & ->).
      split; [| split; [now apply from_table_tl | discriminate]].
      exists (ms ++ [mv]). split.
      * apply Forall_app. split; [assumption |]. constructor; auto.
      * rewrite completed_snoc. apply commitActive_sliceIds.
        rewrite completed_ids. apply initial_ids_NoDup.
  - cbn [Mesh.cubies Mesh.moveQueue Mesh.currentMove Mesh.isAnimating Mesh.activeCubieIds Mesh.enqueue].
    split; [assumption |]. split; [| assumption].
    apply Forall_app. now split.
Qed.

(** A frame long enough completes the head of the queue in one step. *)
Lemma Pivot_frame_completes (delta : Num.num) (st : Pivot.State)
      (m : Move) (q : list Move) :
  Pivot.isAnimating st = false ->
  Pivot.moveQueue st = m :: q ->
  (1 <=? Pivot.advanced delta st) = true ->
  Pivot.useFrame delta st
  = Pivot.mk_State (finishMove m (Pivot.cubies st)) q false None 0 0.
Proof.
  intros Ha Hq Hp. unfold Pivot.useFrame, Pivot.advanced in *.
  unfold Pivot.start in *. rewrite Ha, Hq in Hp |- *.
  cbn [Pivot.isAnimating Pivot.currentMove Pivot.progress] in *.
  rewrite Hp. reflexivity.
Qed.

(** The scenario of a move and its inverse: with [R1] and [R2] queued,
    two frames of a sixth of a second bring the component back to its
    initial state. *)
Example Pivot_R1_then_R2 :
  let d := Num.of_frac 1 6 in
  Pivot.useFrame d (Pivot.useFrame d (Pivot.enqueue [R1; R2] Pivot.initial))
  = Pivot.initial.
Proof.
  intro d.
  rewrite (Pivot_frame_completes d (Pivot.enqueue [R1; R2] Pivot.initial)
             R1 [R2]); [| reflexivity | reflexivity | vm_compute; reflexivity].
  rewrite (Pivot_frame_completes d _ R2 []);
    [| reflexivity | reflexivity | vm_compute; reflexivity].
  cbn [Pivot.cubies Pivot.enqueue Pivot.initial].
  rewrite (finishMove_there_and_back R1 R2); try reflexivity.
  - cbn; tauto.
  - cbn; tauto.
  - apply initial_on_lattice.
Qed.

(** So the bijection holds in every state of either component, whether a
    turn is in flight or not. *)
Corollary Pivot_reachable_bijection (st : Pivot.State) :
  Pivot.reachable st ->
  Permutation (map position (Pivot.cubies st)) (map lattice_vec lattice).
Proof.
  intro H. destruct (Pivot_reachable_store st H) as ((ms & Hms & ->) & _).
  now apply reachable_bijection.
Qed.

Corollary Mesh_reachable_bijection (target : Num.num) (st : Mesh.State) :
  Mesh.reachable target st ->
  Permutation (map position (Mesh.cubies st)) (map lattice_vec lattice).
Proof.
  intro H. destruct (Mesh_reachable_store target st H) as ((ms & Hms & ->) & _).
  now apply reachable_bijection.
Qed.

(* ================================================================== *)
(** ** Scramble *)
(* ================================================================== *)

Lemma drawn_from_table (i : nat) (m : Move) :
  drawn i = Some m -> In m table_moves.
Proof. apply nth_error_In. Qed.

Lemma redraw_returns (lastAxis : option Axis) (draws : list nat) :
  forall move move' rest,
    In move table_moves ->
    redraw lastAxis move draws = Returns (move', rest) ->
    sameAxis move' lastAxis = false /\ In move' table_moves.
Proof.
  induction draws as [| i draws IH]; intros move move' rest Hin H; cbn in H;
    destruct (sameAxis move lastAxis) eqn:E.
  - discriminate.
  - injection H as <- <-. now split.
  - destruct (drawn i) as [m1 |] eqn:Ed; [| discriminate].
    apply (IH m1 move' rest); [now apply (drawn_from_table i) | assumption].
  - injection H as <- <-. now split.
Qed.

Lemma lastAxisOf_snoc (acc : list Move) (m : Move) :
  lastAxisOf (acc ++ [m]) = Some (axis m).
Proof. unfold lastAxisOf. now rewrite fold_left_app. Qed.

Lemma lastAxisOf_cons (m : Move) (acc : list Move) :
  lastAxisOf (m :: acc)
  = match acc with [] => Some (axis m) | _ => lastAxisOf acc end.
Proof.
  destruct acc as [| m1 acc]; [reflexivity |].
  unfold lastAxisOf. cbn. generalize (Some (axis m1)).
  induction acc; intros; reflexivity.
Qed.

Lemma alternating_snoc (acc : list Move) (m : Move) :
  alternating acc -> sameAxis m (lastAxisOf acc) = false ->
  alternating (acc ++ [m]).
Proof.
  induction acc as [| m0 acc IH]; intros Halt Hlast; [exact I |].
  destruct acc as [| m1 acc].
  - cbn in *. split; [| exact I].
    intro E. rewrite E in Hlast. now destruct (axis m).
  - cbn [app alternating] in *. destruct Halt as [Hne Halt].
    split; [assumption |]. apply IH; [assumption |].
    now rewrite lastAxisOf_cons in Hlast.
Qed.

Lemma scrambleLoop_returns (n : nat) :
  forall acc draws moves rest,
    alternating acc -> from_table acc ->
    scrambleLoop n (lastAxisOf acc) acc draws = Returns (moves, rest) ->
    List.length moves = (List.length acc + n)%nat
    /\ alternating moves /\ from_table moves.
Proof.
  induction n as [| n IH]; intros acc draws moves rest Halt Htab H; cbn in H.
  - injection H as <- <-. rewrite Nat.add_0_r. auto.
  - destruct draws as [| i draws]; [discriminate |].
    destruct (drawn i) as [m0 |] eqn:Ed; [| discriminate].
    destruct (redraw (lastAxisOf acc) m0 draws) as [[m1 rest1] | |] eqn:Er;
      try discriminate.
    apply redraw_returns in Er as [Hsame Hin];
      [| now apply (drawn_from_table i)].
    rewrite <- (lastAxisOf_snoc acc m1) in H.
    apply IH in H.
    + rewrite length_app in H. cbn in H.
      destruct H as (Hlen & Ha & Ht). split; [lia | auto].
    + now apply alternating_snoc.
    + apply Forall_app. split; [assumption | now constructor].
Qed.

(** C7. Whatever the random draws, the moves one call of [scramble]
    returns are twenty moves of the table with no two neighbours on the
    same axis. *)
Theorem scramble_never_repeats_an_axis
        (draws : list nat) (moves : list Move) (rest : list nat) :
  scramble draws = Returns (moves, rest) ->
  List.length moves = 20%nat
  /\ alternating moves
  /\ Forall (fun m => In m table_moves) moves.
Proof.
  intro H. unfold scramble in H.
  change None with (lastAxisOf []) in H.
  apply scrambleLoop_returns in H; [assumption | exact I | constructor].
Qed.

(** Draws that hit the same axis twice in a row are drawn again. *)
Lemma scramble_never_repeats_an_axis_witness :
  alternating
    [U1; L1; F1; D2; R1; B2; U2; L2; F2; D1;
     R2; B1; U1; L1; F1; D2; R1; B2; U2; L2].
Proof.
  apply (scramble_never_repeats_an_axis
           [0; 1; 4; 5; 8; 3; 6; 11; 1; 5; 9; 2;
            7; 7; 10; 0; 4; 8; 3; 6; 11; 1; 5; 9]%nat
           _ [9]%nat).
  reflexivity.
Defined.

(** With every draw an index of [keys], as [randInt(0, keys.length - 1)]
    gives, no call reads a property of [undefined]. *)
Lemma drawn_in_range (i : nat) : (i < 12)%nat -> drawn i <> None.
Proof.
  intro H. unfold drawn. apply nth_error_Some. exact H.
Qed.

Lemma redraw_does_not_throw (lastAxis : option Axis) (draws : list nat) :
  Forall (fun i => (i < 12)%nat) draws ->
  forall move, redraw lastAxis move draws <> Throws.
Proof.
  induction 1 as [| i draws Hi _ IH]; intro move; cbn;
    destruct (sameAxis move lastAxis); try discriminate.
  destruct (drawn i) as [m1 |] eqn:Ed; [apply IH |].
  now apply drawn_in_range in Hi.
Qed.

Lemma redraw_rest (lastAxis : option Axis) (draws : list nat) :
  forall move move' rest,
    redraw lastAxis move draws = Returns (move', rest) ->
    Forall (fun i => (i < 12)%nat) draws ->
    Forall (fun i => (i < 12)%nat) rest.
Proof.
  induction draws as [| i draws IH]; intros move move' rest H Hd; cbn in H;
    destruct (sameAxis move lastAxis).
  - discriminate.
  - now injection H as <- <-.
  - destruct (drawn i) as [m1 |]; [| discriminate].
    apply (IH m1 move' rest H). now apply Forall_inv_tail in Hd.
  - now injection H as <- <-.
Qed.

Lemma scrambleLoop_does_not_throw (n : nat) :
  forall lastAxis acc draws,
    Forall (fun i => (i < 12)%nat) draws ->
    scrambleLoop n lastAxis acc draws <> Throws.
Proof.
  induction n as [| n IH]; intros lastAxis acc draws Hd; cbn;
    [discriminate |].
  destruct draws as [| i draws]; [discriminate |].
  pose proof (Forall_inv Hd) as Hi. apply Forall_inv_tail in Hd.
  destruct (drawn i) as [m0 |] eqn:Ed; [| now apply drawn_in_range in Hi].
  destruct (redraw lastAxis m0 draws) as [[m1 rest1] | |] eqn:Er.
  - apply IH. now apply (redraw_rest lastAxis draws m0 m1 rest1).
  - discriminate.
  - now apply redraw_does_not_throw in Er.
Qed.

Lemma scramble_does_not_throw (draws : list nat) :
  Forall (fun i => (i < 12)%nat) draws -> scramble draws <> Throws.
Proof. apply scrambleLoop_does_not_throw. Qed.

(* ================================================================== *)
(** ** Enqueueing by key *)
(* ================================================================== *)

(** A key that is neither in the table nor on [Object.prototype] reads
    as [undefined], and [handleMove] leaves the queue alone. *)
Lemma handleMove_unknown_key (key : string) (queue : list Value) :
  own_property key MOVES = None ->
  ~ In key Object_prototype ->
  handleMove key queue = queue.
Proof.
  intros Hown Hproto. unfold handleMove, get. rewrite Hown.
  destruct (existsb (String.eqb key) Object_prototype) eqn:E; [| reflexivity].
  exfalso. apply Hproto. apply existsb_exists in E as (k & Hk & Ek).
  apply String.eqb_eq in Ek. now subst.
Qed.

Lemma handleMove_table_key (key : string) (m : Move) (queue : list Value) :
  own_property key MOVES = Some m ->
  handleMove key queue = queue ++ [OfTable m].
Proof. intro H. unfold handleMove, get. now rewrite H. Qed.

(** C9 fails on the code.  The key ["constructor"] is not in the table,
    yet [MOVES["constructor"]] is the inherited [Object.prototype.constructor],
    which passes the test [if (move)] and is appended to the queue. *)
Theorem handleMove_inherited_key :
  own_property "constructor" MOVES = None
  /\ get "constructor" = Inherited "constructor"
  /\ handleMove "constructor" [] = [Inherited "constructor"]
  /\ handleMove "constructor" [] <> [].
Proof.
  split; [reflexivity |]. split; [reflexivity |]. split; [reflexivity |].
  discriminate.
Qed.

(** The same on any queue. *)
Lemma inherited_key_grows_the_queue (queue : list Value) :
  handleMove "constructor" queue = queue ++ [Inherited "constructor"].
Proof. reflexivity. Qed.

(* ================================================================== *)
(** ** The drag resolver on the centre of a face *)
(* ================================================================== *)

Section ResolverFacts.

Variable project : THREE.Vector3 -> THREE.Vector3.
Variable sqrt : Num.num -> Num.num.
Variable step_sin step_cos : Z -> Num.num.

(** A point on the axis of a move does not move under the trial step,
    whatever the sine and cosine of the step are. *)
Lemma delta3D_on_axis (move : Move) (k : Z) :
  let pos := match axis move with
             | AxisX => lattice_vec (k, 0, 0)%Z
             | AxisY => lattice_vec (0, k, 0)%Z
             | AxisZ => lattice_vec (0, 0, k)%Z
             end in
  delta3D step_sin step_cos pos move = zero_vector.
Proof.
  unfold delta3D, THREE.fromAxisHalfAngle, THREE.applyQuaternion, THREE.sub,
    axisVec, zero_vector, lattice_vec.
  destruct (axis move);
    cbn [THREE.x THREE.y THREE.z THREE.qx THREE.qy THREE.qz THREE.qw];
    rewrite ?NumFacts.of_Z_0; f_equal; ring.
Qed.

(** With the older formula of [applyQuaternion] the trial displacement is
    the same as soon as the sine and cosine of the step square to one. *)
Lemma delta3D_either_formula (pos : THREE.Vector3) (move : Move) :
  step_sin (direction move) * step_sin (direction move)
  + step_cos (direction move) * step_cos (direction move) = 1 ->
  THREE.sub
    (THREE.applyQuaternion_legacy pos
       (THREE.fromAxisHalfAngle (axisVec (axis move))
          (step_sin (direction move)) (step_cos (direction move))))
    pos
  = delta3D step_sin step_cos pos move.
Proof.
  intro H. unfold delta3D. f_equal.
  apply applyQuaternion_legacy_unit.
  rewrite <- H. unfold THREE.fromAxisHalfAngle, axisVec.
  destruct (axis move);
    cbn [THREE.x THREE.y THREE.z THREE.qx THREE.qy THREE.qz THREE.qw]; ring.
Qed.

Lemma face_centre_cases (v : THREE.Vector3) :
  face_centre v ->
  exists ax k, (k = 1 \/ k = -1)%Z
    /\ v = match ax with
           | AxisX => lattice_vec (k, 0, 0)%Z
           | AxisY => lattice_vec (0, k, 0)%Z
           | AxisZ => lattice_vec (0, 0, k)%Z
           end.
Proof.
  intros (a & b & c & -> & H).
  assert (Ha : (a = 0 \/ a = 1 \/ a = -1)%Z) by lia.
  assert (Hb : (b = 0 \/ b = 1 \/ b = -1)%Z) by lia.
  assert (Hc : (c = 0 \/ c = 1 \/ c = -1)%Z) by lia.
  destruct Ha as [-> | Ha].
  - destruct Hb as [-> | Hb].
    + exists AxisZ, c. split; [lia | reflexivity].
    + assert (c = 0)%Z as -> by lia.
      exists AxisY, b. split; [lia | reflexivity].
  - assert (b = 0)%Z as -> by lia. assert (c = 0)%Z as -> by lia.
    exists AxisX, a. split; [lia | reflexivity].
Qed.

(** A move of the table whose slice holds the centre of a face turns
    about the axis through that centre. *)
Lemma face_centre_slice (ax : Axis) (k : Z) (move : Move) :
  (k = 1 \/ k = -1)%Z ->
  In move table_moves ->
  let pos := match ax with
             | AxisX => lattice_vec (k, 0, 0)%Z
             | AxisY => lattice_vec (0, k, 0)%Z
             | AxisZ => lattice_vec (0, 0, k)%Z
             end in
  isInSlice pos (axis move) (slice move) = true -> axis move = ax.
Proof.
  intros Hk Hm pos. unfold pos.
  cbn in Hm.
  repeat (destruct Hm as [<- | Hm];
          [destruct Hk as [-> | ->], ax; vm_compute;
           intro H; (reflexivity || discriminate H) |]).
  destruct Hm.
Qed.

Lemma consider_skips (cubie : Cubie) (dragDir : THREE.Vector2)
      (acc : option Num.num * string) (key : string) (move : Move) :
  face_centre (position cubie) ->
  In move table_moves ->
  (isInSlice (position cubie) (axis move) (slice move) = true ->
   delta3D step_sin step_cos (position cubie) move = zero_vector)
  /\ consider project sqrt step_sin step_cos cubie dragDir acc (key, move)
     = acc.
Proof.
  intros Hc Hm.
  destruct (face_centre_cases _ Hc) as (ax & k & Hk & Hpos).
  assert (Hd : isInSlice (position cubie) (axis move) (slice move) = true ->
               delta3D step_sin step_cos (position cubie) move = zero_vector).
  { intro Hs. rewrite Hpos in Hs |- *.
    rewrite <- (face_centre_slice ax k move Hk Hm Hs).
    apply delta3D_on_axis. }
  split; [exact Hd |].
  unfold consider.
  destruct (isInSlice (position cubie) (axis move) (slice move));
    [| reflexivity].
  cbn [negb]. rewrite (Hd eq_refl). reflexivity.
Qed.

(** C8. For a cubie at the centre of a face and any drag vector the
    resolver returns no move: every candidate of the table whose slice
    holds the cubie gives a displacement that is exactly zero, so it is
    discarded before any score, or any division, is computed. *)
Theorem face_centre_resolves_to_no_move
        (cubie : Cubie) (dragDelta : THREE.Vector2) :
  face_centre (position cubie) ->
  determineBestMove project sqrt step_sin step_cos cubie dragDelta = None
  /\ forall key move,
       In (key, move) MOVES ->
       isInSlice (position cubie) (axis move) (slice move) = true ->
       delta3D step_sin step_cos (position cubie) move = zero_vector
       /\ (THREE.lengthSq (delta3D step_sin step_cos (position cubie) move)
           <? Num.of_frac 1 1000) = true.
Proof.
  intro Hc. split.
  - unfold determineBestMove.
    assert (H : forall l acc,
               (forall e, In e l -> In (snd e) table_moves) ->
               fold_left (consider project sqrt step_sin step_cos cubie
                            (normalize sqrt dragDelta)) l acc = acc).
    { induction l as [| [key move] l IH]; intros acc Hl; [reflexivity |].
      cbn [fold_left].
      rewrite (proj2 (consider_skips cubie _ acc key move Hc
                        (Hl (key, move) (or_introl eq_refl)))).
      apply IH. intros e He. apply Hl. now right. }
    rewrite H; [reflexivity |].
    intros e He. now apply in_map.
  - intros key move Hin Hs.
    assert (Hm : In move table_moves) by (apply (in_map snd) in Hin; exact Hin).
    pose proof (proj1 (consider_skips cubie (normalize sqrt dragDelta)
                         (None, EmptyString) key move Hc Hm) Hs) as Hd.
    rewrite Hd. split; reflexivity.
Qed.

End ResolverFacts.

Lemma face_centre_resolves_to_no_move_witness :
  determineBestMove (fun v => v) (fun n => n) (fun _ => Num.half_sqrt2)
    (fun _ => Num.half_sqrt2)
    (mk_Cubie 16 (lattice_vec (0, 1, 0)%Z) THREE.identity "0,1,0")
    (THREE.mk_Vector2 (Num.of_Z 30) (Num.of_Z 40))
  = None.
Proof.
  apply face_centre_resolves_to_no_move.
  exists 0%Z, 1%Z, 0%Z. split; reflexivity.
Defined.

(** Away from the face centres the resolver does answer: a corner cubie,
    a camera that looks down the z axis, and a drag to the left. *)
Example resolver_answers_on_a_corner :
  determineBestMove (fun v => v) (fun _ => 1) THREE.sin_eighth THREE.cos_eighth
    (mk_Cubie 26 (lattice_vec (1, 1, 1)%Z) THREE.identity "1,1,1")
    (THREE.mk_Vector2 (Num.of_Z (-30)) 0)
  = Some "U1"%string.
Proof. vm_compute. reflexivity. Qed.

(* ================================================================== *)
(** ** More about the store *)
(* ================================================================== *)

Lemma commit1_name (m : Move) (c : Cubie) :
  cubie_name (commit1 m c) = cubie_name c.
Proof. unfold commit1. now destruct (isInSlice _ _ _). Qed.

(** X1. With distinct ids the commit of the mesh component, by the ids
    snapshot when the turn starts, writes the same store as the commit of
    the pivot component, by the slice test at the commit; so do whole runs
    of moves. *)
Theorem commit_by_id_is_commit_by_slice
        (m : Move) (ms : list Move) (cs : list Cubie) :
  NoDup (map id cs) ->
  commitActive (sliceIds m cs) m cs = finishMove m cs
  /\ completedById ms cs = completed ms cs.
Proof.
  intro Hnd. split.
  - now apply commitActive_sliceIds.
  - now apply completedById_completed.
Qed.

Lemma commit_by_id_is_commit_by_slice_witness :
  commitActive (sliceIds F1 initial_cubies) F1 initial_cubies
  = finishMove F1 initial_cubies.
Proof.
  apply (commit_by_id_is_commit_by_slice F1 [F1; U2] initial_cubies).
  apply initial_ids_NoDup.
Defined.

Lemma commitActive_names (ids : list Z) (m : Move) (cs : list Cubie) :
  map cubie_name (commitActive ids m cs) = map cubie_name cs.
Proof.
  unfold commitActive. rewrite map_map. apply map_ext.
  intro c. now destruct (includes ids (id c)).
Qed.

Lemma finishMove_names (m : Move) (cs : list Cubie) :
  map cubie_name (finishMove m cs) = map cubie_name cs.
Proof.
  rewrite finishMove_map, map_map. apply map_ext. apply commit1_name.
Qed.

Lemma completed_names (ms : list Move) (cs : list Cubie) :
  map cubie_name (completed ms cs) = map cubie_name cs.
Proof.
  revert cs. induction ms as [| m ms IH]; intro cs; [reflexivity |].
  cbn. now rewrite IH, finishMove_names.
Qed.

(** In a store whose ids count up from [k], the search by id finds the
    cubie at the index of the id. *)
Lemma find_by_id (cs : list Cubie) :
  forall (k : nat) (i : nat) (c : Cubie),
    map id cs = map Z.of_nat (seq k (List.length cs)) ->
    nth_error cs i = Some c ->
    id c = Z.of_nat (k + i)
    /\ find (fun c' => (id c' =? Z.of_nat (k + i))%Z) cs = Some c.
Proof.
  induction cs as [| c0 cs IH]; intros k i c Hids Hnth;
    [destruct i; discriminate |].
  cbn [List.length seq map] in Hids. injection Hids as H0 Hrest.
  destruct i as [| i]; cbn [nth_error] in Hnth.
  - injection Hnth as <-. rewrite Nat.add_0_r. split; [assumption |].
    cbn [find]. now rewrite H0, Z.eqb_refl.
  - destruct (IH (S k) i c Hrest Hnth) as [Hid Hfind].
    replace (k + S i)%nat with (S k + i)%nat by lia.
    split; [assumption |].
    cbn [find]. rewrite H0.
    destruct (Z.of_nat k =? Z.of_nat (S k + i))%Z eqn:E; [| assumption].
    apply Z.eqb_eq in E. lia.
Qed.

(** X2. After any run of moves, of the table or not, the store still
    holds the 27 cubies in their initial order: the cubie at index [i] has
    id [i] and its initial name, and the search by id that the mesh
    component does finds exactly that cubie. *)
Theorem store_keeps_cubies_in_place (ms : list Move) :
  let cs := completed ms initial_cubies in
  map id cs = map Z.of_nat (seq 0 27)
  /\ map cubie_name cs = map cubie_name initial_cubies
  /\ forall (i : nat) (c : Cubie),
       nth_error cs i = Some c ->
       id c = Z.of_nat i
       /\ find (fun c' => (id c' =? Z.of_nat i)%Z) cs = Some c.
Proof.
  intro cs.
  assert (Hids : map id cs = map Z.of_nat (seq 0 27)).
  { unfold cs. rewrite completed_ids. apply initial_ids. }
  split; [exact Hids |]. split; [apply completed_names |].
  intros i c Hnth.
  assert (Hlen : List.length cs = 27%nat).
  { rewrite <- (length_map id), Hids, length_map. apply length_seq. }
  apply (find_by_id cs 0 i c); [now rewrite Hlen | assumption].
Qed.

(* ================================================================== *)
(** ** Integers and fractions among the numbers *)
(* ================================================================== *)

Module NumInt.
Import Num.
Local Open Scope Qc_scope.

Lemma this_qz (k : Z) : (this (qz k) == k # 1)%Q.
Proof. unfold qz. cbn [this Q2Qc]. apply Qred_correct. Qed.

Lemma this_qfrac (n : Z) (d : positive) : (this (qfrac n d) == n # d)%Q.
Proof. unfold qfrac. cbn [this Q2Qc]. apply Qred_correct. Qed.

Lemma sub_of_Z (a b : Z) : sub (of_Z a) (of_Z b) = of_Z (a - b).
Proof.
  unfold sub, of_Z. cbn [rat_part irr_part]. f_equal; try ring.
  apply Qc_is_canon. cbn [this Qcminus Qcplus Qcopp Q2Qc].
  rewrite !Qred_correct. rewrite !this_qz.
  unfold Qeq, Qplus, Qopp. cbn [Qnum Qden]. lia.
Qed.

Lemma opp_of_Z (a : Z) : opp (of_Z a) = of_Z (- a).
Proof.
  unfold opp, of_Z. cbn [rat_part irr_part]. f_equal; try ring.
  apply Qc_is_canon. cbn [this Qcopp Q2Qc].
  rewrite !Qred_correct. rewrite !this_qz.
  unfold Qeq, Qopp. cbn [Qnum Qden]. lia.
Qed.

Lemma sgn_of_Z (k : Z) : sgn (of_Z k) = (k ?= 0)%Z.
Proof.
  unfold of_Z.
  rewrite (NumFacts.sgn_scaled (qz k) 0 k 0 1 (this_qz k) (NumFacts.this_zero 1)).
  unfold sgnZ. now destruct (k ?= 0)%Z.
Qed.

Lemma abs_of_Z (k : Z) : abs (of_Z k) = of_Z (Z.abs k).
Proof.
  unfold abs. rewrite sgn_of_Z.
  destruct (k ?= 0)%Z eqn:E.
  - apply Z.compare_eq_iff in E. now subst.
  - rewrite Z.compare_lt_iff in E. rewrite opp_of_Z. f_equal. lia.
  - rewrite Z.compare_gt_iff in E. f_equal. lia.
Qed.

(** An integer against a fraction. *)
Lemma compare_of_Z_frac (k n : Z) (d : positive) :
  compare (of_Z k) (of_frac n d) = (k * Zpos d ?= n)%Z.
Proof.
  unfold compare, sub, of_Z, of_frac. cbn [rat_part irr_part].
  rewrite (NumFacts.sgn_scaled _ _ (k * Zpos d - n) 0 d).
  - unfold sgnZ. rewrite (Z.compare_sub (k * Zpos d) n).
    now destruct (k * Z.pos d - n ?= 0)%Z.
  - cbn [this Qcminus Qcplus Qcopp Q2Qc].
    rewrite !Qred_correct. rewrite this_qz, this_qfrac.
    unfold Qeq, Qplus, Qopp. cbn [Qnum Qden]. lia.
  - cbn [this Qcminus Qcplus Qcopp Q2Qc].
    rewrite !Qred_correct. reflexivity.
Qed.

(** A fraction times an integer. *)
Lemma mul_frac_of_Z (n k : Z) (d : positive) :
  mul (of_frac n d) (of_Z k) = of_frac (n * k) d.
Proof.
  unfold mul, of_frac, of_Z. cbn [rat_part irr_part]. f_equal; try ring.
  apply Qc_is_canon. cbn [this Qcmult Qcplus Q2Qc].
  rewrite !Qred_correct. rewrite this_qz, !this_qfrac.
  unfold Qeq, Qplus, Qmult. cbn [Qnum Qden]. lia.
Qed.

End NumInt.

(** X12. On integer coordinates the tolerance of [isInSlice] is exact:
    for any integer position and any integer slice value the test holds
    exactly when the coordinate along the axis is the slice value. *)
Theorem isInSlice_is_equality_on_integers
        (ax : Axis) (p : Z * Z * Z) (sliceVal : Z) :
  isInSlice (lattice_vec p) ax sliceVal = (along ax p =? sliceVal)%Z.
Proof.
  destruct p as [[a b] c].
  assert (H : forall k : Z,
             (Num.abs (Num.of_Z k - Num.of_Z sliceVal) <? epsilon)
             = (k =? sliceVal)%Z).
  { intro k. rewrite NumInt.sub_of_Z, NumInt.abs_of_Z.
    unfold Num.ltb, epsilon. rewrite NumInt.compare_of_Z_frac.
    destruct (k =? sliceVal)%Z eqn:E.
    - apply Z.eqb_eq in E. subst. now rewrite Z.sub_diag.
    - apply Z.eqb_neq in E.
      destruct (Z.abs (k - sliceVal) * 10 ?= 1)%Z eqn:E1; try reflexivity.
      rewrite Z.compare_lt_iff in E1. lia. }
  destruct ax; cbn [isInSlice lattice_vec along THREE.x THREE.y THREE.z];
    apply H.
Qed.

(* ================================================================== *)
(** ** Random draws *)
(* ================================================================== *)

(** X3. For a value of [Math.random()] in [0, 1), given as a fraction,
    and [min <= max], [randInt(min, max)] lies between [min] and [max];
    so the index [scramble] draws is an index of [keys], and a call of
    [scramble] fed with such values never reads a property of
    [undefined]. *)
Theorem randInt_in_range
        (min max : Z) (n : Z) (d : positive) (randoms : list (Z * positive)) :
  (min <= max)%Z ->
  (0 <= n < Zpos d)%Z ->
  Forall (fun r => (0 <= fst r < Zpos (snd r))%Z) randoms ->
  (min <= randInt min max (Num.of_frac n d) <= max)%Z
  /\ drawn (Z.to_nat (randomKeyIndex (Num.of_frac n d))) <> None
  /\ scramble (map (fun r => Z.to_nat
                               (randomKeyIndex (Num.of_frac (fst r) (snd r))))
                   randoms)
     <> Throws.
Proof.
  intros Hmm Hn Hrs.
  assert (Hrange : forall lo hi k e,
             (lo <= hi)%Z -> (0 <= k < Zpos e)%Z ->
             (lo <= randInt lo hi (Num.of_frac k e) <= hi)%Z).
  { intros lo hi k e Hlh Hk. unfold randInt.
    rewrite NumInt.mul_frac_of_Z, NumFacts.floor_of_frac.
    assert (0 <= k * (hi - lo + 1) / Zpos e)%Z
      by (apply Z.div_pos; nia).
    assert (k * (hi - lo + 1) / Zpos e < hi - lo + 1)%Z
      by (apply Z.div_lt_upper_bound; nia).
    lia. }
  assert (Hidx : forall k e, (0 <= k < Zpos e)%Z ->
                 (Z.to_nat (randomKeyIndex (Num.of_frac k e)) < 12)%nat).
  { intros k e Hk. unfold randomKeyIndex.
    change (Z.of_nat (List.length keys) - 1)%Z with 11%Z.
    pose proof (Hrange 0 11 k e ltac:(lia) Hk)%Z. lia. }
  split; [now apply Hrange |]. split.
  - apply drawn_in_range. now apply Hidx.
  - apply scramble_does_not_throw. apply Forall_map.
    apply (Forall_impl _ (P := fun r => (0 <= fst r < Zpos (snd r))%Z));
      [| assumption].
    intros [k e] Hk. now apply Hidx.
Qed.

Lemma randInt_in_range_witness :
  (0 <= randInt 0 11 (Num.of_frac 999 1000) <= 11)%Z.
Proof.
  apply (randInt_in_range 0 11 999 1000 [(1, 2%positive); (0, 7%positive)]%Z).
  - lia.
  - lia.
  - repeat constructor; cbn; lia.
Defined.

(* ================================================================== *)
(** ** First in, first out *)
(* ================================================================== *)

Lemma PivotRun_ordered (log : list Move) (st : Pivot.State) :
  PivotRun log st -> PivotOrdered log st.
Proof.
  induction 1 as [| log delta st _ IH | log moves st _ IH].
  - exists []. repeat split; try reflexivity; discriminate.
  - destruct IH as (done & Hlog & Hcs & Hanim & Hidle).
    assert (H1 : PivotOrdered log (Pivot.start st)).
    { exists done. unfold Pivot.start.
      destruct (Pivot.isAnimating st) eqn:Ea.
      - rewrite Ea. repeat split; assumption.
      - destruct (Pivot.moveQueue st) as [| m0 q] eqn:Eq.
        + rewrite Ea, Eq. repeat split; try assumption.
        + cbn [Pivot.cubies Pivot.moveQueue Pivot.isAnimating
                 Pivot.currentMove].
          repeat split; try assumption; [| discriminate].
          intros _. now exists m0, q. }
    clear Hlog Hcs Hanim Hidle done.
    destruct H1 as (done & Hlog & Hcs & Hanim & Hidle).
    destruct (Pivot_useFrame_cases delta st)
      as [[E _] | [(mv & Ha & Hc & _ & E) | (mv & Ha & Hc & _ & E)]];
      rewrite E.
    + exists done. repeat split; assumption.
    + exists done.
      cbn [Pivot.cubies Pivot.moveQueue Pivot.isAnimating Pivot.currentMove].
      repeat split; try assumption; [| discriminate].
      intros _. destruct (Hanim Ha) as (m & q & Hm & Hq).
      exists m, q. split; [congruence | assumption].
    + destruct (Hanim Ha) as (m & q & Hm & Hq).
      assert (m = mv) by congruence. subst m.
      exists (done ++ [mv]). unfold Pivot.finish.
      cbn [Pivot.cubies Pivot.moveQueue Pivot.isAnimating Pivot.currentMove].
      rewrite Hq. cbn [handleMoveComplete tl].
      repeat split; try discriminate.
      * rewrite Hlog, Hq, <- app_assoc. reflexivity.
      * rewrite Hcs. symmetry. apply completed_snoc.
  - destruct IH as (done & Hlog & Hcs & Hanim & Hidle).
    exists done.
    cbn [Pivot.enqueue Pivot.cubies Pivot.moveQueue Pivot.isAnimating
           Pivot.currentMove].
    repeat split; try assumption.
    + rewrite Hlog. symmetry. apply app_assoc.
    + intro Ha. destruct (Hanim Ha) as (m & q & Hm & Hq).
      exists m, (q ++ moves). split; [assumption |]. now rewrite Hq.
Qed.

Lemma MeshRun_ordered (target : Num.num) (log : list Move) (st : Mesh.State) :
  MeshRun target log st -> MeshOrdered log st.
Proof.
  induction 1 as [| log delta st _ IH | log moves st _ IH].
  - exists []. repeat split; try reflexivity; discriminate.
  - destruct IH as (done & Hlog & Hcs & Hanim & Hidle).
    assert (H1 : MeshOrdered log (Mesh.start st)).
    { exists done. unfold Mesh.start.
      destruct (Mesh.isAnimating st) eqn:Ea.
      - rewrite Ea. repeat split; assumption.
      - destruct (Mesh.moveQueue st) as [| m0 q] eqn:Eq.
        + rewrite Ea, Eq. repeat split; try assumption.
        + cbn [Mesh.cubies Mesh.moveQueue Mesh.isAnimating
                 Mesh.currentMove Mesh.activeCubieIds].
          repeat split; try assumption; [| discriminate].
          intros _. exists m0, q. repeat split. }
    clear Hlog Hcs Hanim Hidle done.
    destruct H1 as (done & Hlog & Hcs & Hanim & Hidle).
    destruct (Mesh_useFrame_cases target delta st)
      as [[E _] | [(mv & Ha & Hc & _ & E) | (mv & Ha & Hc & _ & E)]];
      rewrite E.
    + exists done. repeat split; assumption.
    + exists done.
      cbn [Mesh.cubies Mesh.moveQueue Mesh.isAnimating Mesh.currentMove
             Mesh.activeCubieIds].
      repeat split; try assumption; [| discriminate].
      intros _. destruct (Hanim Ha) as (m & q & Hm & Hq & Hids).
      exists m, q. repeat split; [congruence | assumption | assumption].
    + destruct (Hanim Ha) as (m & q & Hm & Hq & Hids).
      assert (m = mv) by congruence. subst m.
      exists (done ++ [mv]).
      cbn [Mesh.cubies Mesh.moveQueue Mesh.isAnimating Mesh.currentMove
             Mesh.activeCubieIds].
      rewrite Hq. cbn [handleMoveComplete tl].
      repeat split; try discriminate.
      * rewrite Hlog, Hq, <- app_assoc. reflexivity.
      * rewrite Hids, completed_snoc, <- Hcs.
        apply commitActive_sliceIds.
        rewrite Hcs, completed_ids. apply initial_ids_NoDup.
  - destruct IH as (done & Hlog & Hcs & Hanim & Hidle).
    exists done.
    cbn [Mesh.enqueue Mesh.cubies Mesh.moveQueue Mesh.isAnimating
           Mesh.currentMove Mesh.activeCubieIds].
    repeat split; try assumption.
    + rewrite Hlog. symmetry. apply app_assoc.
    + intro Ha. destruct (Hanim Ha) as (m & q & Hm & Hq & Hids).
      exists m, (q ++ moves). repeat split; [assumption | | assumption].
      now rewrite Hq.
Qed.

(** X7. Moves are committed in the order they were enqueued, in both
    components and whatever the moves are: at every point of a run the
    store is the commit, by slice, of a prefix of everything ever appended
    to the queue, and the queue is the rest.  While a turn is in flight
    the move that turns is the head of the queue (in the mesh component
    the ids snapshot are the ids of its slice in the store as it is), and
    when none is in flight no move is current. *)
Theorem moves_commit_in_queue_order
        (target : Num.num) (log log' : list Move)
        (st : Pivot.State) (ms : Mesh.State) :
  PivotRun log st ->
  MeshRun target log' ms ->
  PivotOrdered log st /\ MeshOrdered log' ms.
Proof.
  intros Hp Hm. split; [now apply PivotRun_ordered |].
  now apply (MeshRun_ordered target).
Qed.

Lemma moves_commit_in_queue_order_witness :
  PivotOrdered [U1; R2]
    (Pivot.useFrame (Num.of_frac 1 6)
       (Pivot.enqueue [R2] (Pivot.enqueue [U1] Pivot.initial)))
  /\ MeshOrdered [F1]
       (Mesh.useFrame 2 1 (Mesh.enqueue [F1] Mesh.initial)).
Proof.
  apply (moves_commit_in_queue_order 2 [U1; R2] [F1]).
  - apply pivot_run_frame.
    apply (pivot_run_enqueue [U1] [R2]).
    apply (pivot_run_enqueue [] [U1]).
    apply pivot_run_initial.
  - apply mesh_run_frame.
    apply (mesh_run_enqueue 2 [] [F1]).
    apply mesh_run_initial.
Defined.

(* ================================================================== *)
(** ** The two groups of the pivot component *)
(* ================================================================== *)

Lemma inStaticGroup_negb (st : Pivot.State) (c : Cubie) :
  inStaticGroup st c = negb (inPivotGroup st c).
Proof.
  unfold inStaticGroup, inPivotGroup.
  destruct (Pivot.isAnimating st), (Pivot.currentMove st) as [m |];
    cbn [negb orb andb]; try reflexivity.
Qed.

Lemma filter_partition_permutation {A : Type} (f g : A -> bool) (l : list A) :
  (forall a, g a = negb (f a)) ->
  Permutation (filter f l ++ filter g l) l.
Proof.
  intro Hg. induction l as [| a l IH]; [constructor |].
  cbn [filter]. rewrite (Hg a). destruct (f a); cbn [negb app].
  - now constructor.
  - apply Permutation_sym, Permutation_cons_app. now apply Permutation_sym.
Qed.

Lemma Pivot_reachable_run (st : Pivot.State) :
  Pivot.reachable st -> exists log, PivotRun log st.
Proof.
  induction 1 as [| delta st _ [log IH] | moves st _ [log IH] _].
  - exists []. constructor.
  - exists log. now constructor.
  - exists (log ++ moves). now constructor.
Qed.

Lemma slice_count (ax : Axis) (s : Z) (cs : list Cubie) :
  In s coords ->
  Permutation (map position cs) (map lattice_vec lattice) ->
  List.length (filter (fun c => isInSlice (position c) ax s) cs) = 9%nat.
Proof.
  intros Hs Hperm.
  rewrite (filter_map_length position (fun v => isInSlice v ax s)).
  rewrite (filter_length_permutation _ _ _ Hperm).
  pose proof lattice_slices as H.
  rewrite forallb_forall in H.
  assert (Hax : In ax [AxisX; AxisY; AxisZ]) by (destruct ax; cbn; auto).
  specialize (H ax Hax). rewrite forallb_forall in H.
  specialize (H s Hs). now apply Nat.eqb_eq in H.
Qed.

Lemma table_slices (m : Move) : In m table_moves -> In (slice m) coords.
Proof.
  intro Hm. cbn in Hm.
  repeat (destruct Hm as [<- | Hm]; [cbn; auto |]). contradiction.
Qed.

(** X8. In every state the pivot component goes through, each cubie of
    the store is rendered in exactly one of the two groups.  While a turn
    is in flight the pivot group holds the nine cubies of the slice that
    turns and the static group the other eighteen; otherwise the pivot
    group is empty and the static group is the whole store. *)
Theorem every_cubie_is_rendered_once (st : Pivot.State) :
  Pivot.reachable st ->
  Permutation (pivotGroup st ++ staticGroup st) (Pivot.cubies st)
  /\ (forall c, inStaticGroup st c = negb (inPivotGroup st c))
  /\ (Pivot.isAnimating st = true ->
      List.length (pivotGroup st) = 9%nat
      /\ List.length (staticGroup st) = 18%nat)
  /\ (Pivot.isAnimating st = false ->
      pivotGroup st = [] /\ staticGroup st = Pivot.cubies st).
Proof.
  intro Hr.
  assert (Hperm : Permutation (pivotGroup st ++ staticGroup st)
                              (Pivot.cubies st)).
  { apply filter_partition_permutation. apply inStaticGroup_negb. }
  split; [exact Hperm |]. split; [apply inStaticGroup_negb |]. split.
  - intro Ha.
    destruct (Pivot_reachable_run st Hr) as [log Hrun].
    destruct (PivotRun_ordered log st Hrun) as (done & _ & _ & Hanim & _).
    destruct (Hanim Ha) as (m & q & Hm & _).
    destruct (Pivot_reachable_store st Hr) as [(ms & Hms & Hcs) [_ Htab]].
    assert (H9 : List.length (pivotGroup st) = 9%nat).
    { unfold pivotGroup.
      rewrite (filter_ext (inPivotGroup st)
                 (fun c => isInSlice (position c) (axis m) (slice m))).
      - apply slice_count; [apply table_slices; now apply Htab |].
        rewrite Hcs. now apply reachable_bijection.
      - intro c. unfold inPivotGroup. now rewrite Ha, Hm. }
    split; [exact H9 |].
    apply Permutation_length in Hperm. rewrite length_app, H9 in Hperm.
    assert (List.length (Pivot.cubies st) = 27%nat).
    { rewrite <- (length_map position), Hcs.
      rewrite (Permutation_length (reachable_bijection ms Hms)).
      reflexivity. }
    lia.
  - intro Ha. unfold pivotGroup, staticGroup. split.
    + rewrite (filter_ext (inPivotGroup st) (fun _ => false)).
      * clear. induction (Pivot.cubies st) as [| c l IH]; [reflexivity | exact IH].
      * intro c. unfold inPivotGroup. now rewrite Ha.
    + rewrite (filter_ext (inStaticGroup st) (fun _ => true)).
      * clear. induction (Pivot.cubies st) as [| c l IH]; [reflexivity |].
        cbn [filter]. now rewrite IH.
      * intro c. unfold inStaticGroup. now rewrite Ha.
Qed.

Lemma every_cubie_is_rendered_once_witness :
  List.length
    (pivotGroup (Pivot.useFrame (Num.of_frac 1 60)
                   (Pivot.enqueue [U1] Pivot.initial))) = 9%nat.
Proof.
  apply (every_cubie_is_rendered_once
           (Pivot.useFrame (Num.of_frac 1 60)
              (Pivot.enqueue [U1] Pivot.initial))).
  - apply Pivot.reach_frame. apply Pivot.reach_enqueue.
    + apply Pivot.reach_initial.
    + repeat constructor.
  - vm_compute. reflexivity.
Defined.

(* ================================================================== *)
(** ** The order of the numbers *)
(* ================================================================== *)

Module NumOrder.

Import Rdefinitions Raxioms RIneq R_sqrt Qreals Lra.
Local Open Scope R_scope.

Lemma root2_pos : 0 < (sqrt 2).
Proof. apply sqrt_lt_R0. lra. Qed.

Lemma root2_square : (sqrt 2) * (sqrt 2) = 2.
Proof. apply sqrt_def. lra. Qed.

Lemma Q2R_Qcmult (a b : Qc) :
  Q2R (this (a * b)%Qc) = Q2R (this a) * Q2R (this b).
Proof.
  change (this (a * b)%Qc) with (Qred (this a * this b)).
  rewrite (Qeq_eqR _ _ (Qred_correct _)). apply Q2R_mult.
Qed.

Lemma Q2R_Qcplus (a b : Qc) :
  Q2R (this (a + b)%Qc) = Q2R (this a) + Q2R (this b).
Proof.
  change (this (a + b)%Qc) with (Qred (this a + this b)).
  rewrite (Qeq_eqR _ _ (Qred_correct _)). apply Q2R_plus.
Qed.

Lemma Q2R_Qcopp (a : Qc) : Q2R (this (- a)%Qc) = - Q2R (this a).
Proof.
  change (this (- a)%Qc) with (Qred (- this a)).
  rewrite (Qeq_eqR _ _ (Qred_correct _)). apply Q2R_opp.
Qed.

Lemma Q2R_Qcminus (a b : Qc) :
  Q2R (this (a - b)%Qc) = Q2R (this a) - Q2R (this b).
Proof.
  change (a - b)%Qc with (a + - b)%Qc. rewrite Q2R_Qcplus, Q2R_Qcopp. lra.
Qed.

Lemma Q2R_Qc1 : Q2R (this 1%Qc) = 1.
Proof. unfold Q2R. cbn. lra. Qed.

Lemma val_sub (x y : Num.num) : real_of (Num.sub x y) = real_of x - real_of y.
Proof.
  unfold real_of, Num.sub. cbn [Num.rat_part Num.irr_part].
  rewrite !Q2R_Qcminus. lra.
Qed.

Lemma Qcompare_R (p q : Q) :
  match (p ?= q)%Q with
  | Lt => Q2R p < Q2R q
  | Eq => Q2R p = Q2R q
  | Gt => Q2R p > Q2R q
  end.
Proof.
  destruct (p ?= q)%Q eqn:E.
  - apply Qeq_eqR. now apply Qeq_alt.
  - apply Qlt_Rlt. now apply Qlt_alt.
  - apply Qlt_Rlt. now apply Qgt_alt.
Qed.

Lemma Qccompare_R (a : Qc) :
  match (a ?= 0)%Qc with
  | Lt => Q2R (this a) < 0
  | Eq => Q2R (this a) = 0
  | Gt => Q2R (this a) > 0
  end.
Proof.
  pose proof (Qcompare_R (this a) 0) as H.
  replace (Q2R 0) with 0 in H by (unfold Q2R; cbn; lra).
  exact H.
Qed.

Lemma Qccompare_squares (a b : Qc) :
  match (a * a ?= (1 + 1) * (b * b))%Qc with
  | Lt => Q2R (this a) * Q2R (this a) < 2 * (Q2R (this b) * Q2R (this b))
  | Eq => Q2R (this a) * Q2R (this a) = 2 * (Q2R (this b) * Q2R (this b))
  | Gt => Q2R (this a) * Q2R (this a) > 2 * (Q2R (this b) * Q2R (this b))
  end.
Proof.
  pose proof (Qcompare_R (this (a * a)%Qc) (this ((1 + 1) * (b * b))%Qc)) as H.
  rewrite !Q2R_Qcmult, Q2R_Qcplus, Q2R_Qc1 in H.
  replace ((1 + 1) * (Q2R (this b) * Q2R (this b)))
    with (2 * (Q2R (this b) * Q2R (this b))) in H by lra.
  exact H.
Qed.

(** The sign computed on the coefficients is the sign of the real number. *)
Lemma sgn_val (x : Num.num) :
  match Num.sgn x with
  | Lt => real_of x < 0
  | Eq => real_of x = 0
  | Gt => real_of x > 0
  end.
Proof.
  destruct x as [a b]. unfold Num.sgn, real_of. cbn [Num.rat_part Num.irr_part].
  pose proof (Qccompare_R a) as Ha.
  pose proof (Qccompare_R b) as Hb.
  pose proof (Qccompare_squares a b) as Hs.
  pose proof root2_pos as Hr. pose proof root2_square as Hr2.
  set (A := Q2R (this a)) in *. set (B := Q2R (this b)) in *.
  set (s := (sqrt 2)) in *.
  assert (Hprod : (A + B * s) * (A - B * s) = A * A - 2 * (B * B)).
  { replace ((A + B * s) * (A - B * s)) with (A * A - B * B * (s * s)) by ring.
    rewrite Hr2. ring. }
  destruct (a ?= 0)%Qc, (b ?= 0)%Qc.
  - rewrite Ha, Hb. lra.
  - rewrite Ha. nra.
  - rewrite Ha. nra.
  - rewrite Hb. lra.
  - nra.
  - (* a < 0 < b *)
    rewrite <- (NumFacts.Qccompare_antisym (a * a) ((1 + 1) * (b * b))).
    destruct (a * a ?= (1 + 1) * (b * b))%Qc; cbn [CompOpp].
    + assert (0 < B * s - A) by nra. nra.
    + assert (0 < B * s - A) by nra. nra.
    + assert (0 < B * s - A) by nra. nra.
  - rewrite Hb. lra.
  - destruct (a * a ?= (1 + 1) * (b * b))%Qc.
    + assert (0 < A - B * s) by nra. nra.
    + assert (0 < A - B * s) by nra. nra.
    + assert (0 < A - B * s) by nra. nra.
  - nra.
Qed.

Lemma val_add (x y : Num.num) : real_of (Num.add x y) = real_of x + real_of y.
Proof.
  unfold real_of, Num.add. cbn [Num.rat_part Num.irr_part].
  rewrite !Q2R_Qcplus. lra.
Qed.

Lemma ltb_val (x y : Num.num) : Num.ltb x y = true <-> real_of x < real_of y.
Proof.
  unfold Num.ltb, Num.compare. pose proof (sgn_val (Num.sub x y)) as H.
  rewrite val_sub in H.
  destruct (Num.sgn (Num.sub x y)); split; intro H0;
    try discriminate; try reflexivity; lra.
Qed.

Lemma ltb_false_val (x y : Num.num) : Num.ltb x y = false <-> real_of y <= real_of x.
Proof.
  unfold Num.ltb, Num.compare. pose proof (sgn_val (Num.sub x y)) as H.
  rewrite val_sub in H.
  destruct (Num.sgn (Num.sub x y)); split; intro H0;
    try discriminate; try reflexivity; lra.
Qed.

Lemma leb_val (x y : Num.num) : Num.leb x y = true <-> real_of x <= real_of y.
Proof. rewrite NumFacts.leb_ltb, negb_true_iff. apply ltb_false_val. Qed.

(** A number whose sign is [Eq] is zero: [sqrt 2] is irrational. *)
Lemma sgn_Eq (x : Num.num) : Num.sgn x = Eq -> x = Num.zero.
Proof.
  destruct x as [a b]. intro H.
  set (N := (Qnum (this a) * Zpos (Qden (this b)))%Z).
  set (M := (Qnum (this b) * Zpos (Qden (this a)))%Z).
  set (D := (Qden (this a) * Qden (this b))%positive).
  assert (Ha : (this a == N # D)%Q).
  { unfold Qeq, N, D. cbn [Qnum Qden]. rewrite Pos2Z.inj_mul. ring. }
  assert (Hb : (this b == M # D)%Q).
  { unfold Qeq, M, D. cbn [Qnum Qden]. rewrite Pos2Z.inj_mul. ring. }
  rewrite (NumFacts.sgn_scaled a b N M D Ha Hb) in H.
  assert (HNM : N = 0%Z /\ M = 0%Z).
  { unfold sgnZ in H.
    destruct (N ?= 0)%Z eqn:EN, (M ?= 0)%Z eqn:EM; try discriminate.
    - apply Z.compare_eq in EN, EM. now split.
    - apply Z.compare_eq in H.
      assert (HM0 : M = 0%Z) by (apply (NumFacts.sqrt2_irrational N); lia).
      rewrite HM0 in EM. discriminate.
    - apply Z.compare_eq in H.
      assert (HM0 : M = 0%Z) by (apply (NumFacts.sqrt2_irrational N); lia).
      rewrite HM0 in EM. discriminate. }
  destruct HNM as [HN HM]. unfold Num.zero. f_equal.
  - apply Qc_is_canon. rewrite Ha, HN. reflexivity.
  - apply Qc_is_canon. rewrite Hb, HM. reflexivity.
Qed.

Lemma val_inj (x y : Num.num) : real_of x = real_of y -> x = y.
Proof.
  intro H. pose proof (sgn_val (Num.sub x y)) as Hs. rewrite val_sub in Hs.
  destruct (Num.sgn (Num.sub x y)) eqn:E; try lra.
  apply sgn_Eq in E.
  replace x with (Num.add (Num.sub x y) y) by ring.
  rewrite E. ring.
Qed.

(** *** The order itself *)

Lemma ltb_irrefl (x : Num.num) : Num.ltb x x = false.
Proof. apply ltb_false_val. lra. Qed.

Lemma ltb_trans (x y z : Num.num) :
  Num.ltb x y = true -> Num.ltb y z = true -> Num.ltb x z = true.
Proof. rewrite !ltb_val. lra. Qed.

Lemma not_ltb_trans (x y z : Num.num) :
  Num.ltb y x = false -> Num.ltb z y = false -> Num.ltb z x = false.
Proof. rewrite !ltb_false_val. lra. Qed.

Lemma ltb_not_ltb_trans (x y z : Num.num) :
  Num.ltb x y = true -> Num.ltb x z = false -> Num.ltb y z = false.
Proof. rewrite ltb_val, !ltb_false_val. lra. Qed.

Lemma ltb_not_ltb (x y : Num.num) : Num.ltb x y = true -> Num.ltb y x = false.
Proof. rewrite ltb_val, ltb_false_val. lra. Qed.

Lemma leb_refl (x : Num.num) : Num.leb x x = true.
Proof. apply leb_val. lra. Qed.

Lemma leb_antisym (x y : Num.num) :
  Num.leb x y = true -> Num.leb y x = true -> x = y.
Proof. rewrite !leb_val. intros H1 H2. apply val_inj. lra. Qed.

End NumOrder.
